(** * HTMLInstrumentation: a shallow embedding of
    [src/language/HTMLInstrumentation.js] and its verification.

    The module scans an HTML document into tag spans, caches the scan per
    document path, and injects a [data-brackets-id] attribute after every
    tag name.

    Modelling conventions.
    - JavaScript numbers that hold offsets, lengths and tag ids are [Z].
    - JavaScript strings are [string]; one [ascii] stands for one code unit.
    - A property that may be [undefined] is an [option].
    - [tagStack] is a list whose head is the top of the stack (the last
      element of the JavaScript array); [tags] keeps the array order.
    - The tokenizer [DOMHelpers.eachNode] and the range tracker
      [MarkedTextTracker] live in other files of the repository: they are
      taken as parameters. *)

From Stdlib Require Import ZArith Ascii String List Bool Lia Sorted Permutation.
From Stdlib Require Import DecimalString.
From Stdlib Require DecimalPos DecimalZ.
From stdpp Require Import base option list strings gmap.

Local Open Scope string_scope.
Local Open Scope list_scope.
Local Open Scope Z_scope.

(** ** Node payloads handed over by [DOMHelpers.eachNode] *)

Record Payload : Type := mkPayload {
  nodeType     : Z;
  nodeName     : option string;   (* [undefined] for text and comments *)
  closed       : bool;            (* truthy for [<div />] *)
  closing      : bool;            (* truthy for [</div>] *)
  sourceOffset : Z;
  sourceLength : Z
}.

#[global] Instance Payload_eq_dec : EqDecision Payload.
Proof. solve_decision. Defined.

(** [!payload.nodeName]: [undefined] and the empty string are falsy. *)
Definition name_falsy (n : option string) : bool :=
  match n with
  | None => true
  | Some s => if decide (s = "") then true else false
  end.

(** The string a truthy [nodeName] holds. *)
Definition name_string (n : option string) : string := default "" n.

(** ** The regular expression of [_isEmptyTag] *)

(** Canonicalisation of a code unit under the [i] flag: [a-z] go to [A-Z]. *)
Definition canonicalize (c : ascii) : ascii :=
  let n := nat_of_ascii c in
  if ((97 <=? n)%nat && (n <=? 122)%nat)%bool then ascii_of_nat (n - 32) else c.

(** The pattern [p] matches at the very start of [s], ignoring case. *)
Fixpoint matches_here (p s : string) : bool :=
  match p, s with
  | EmptyString, _ => true
  | String _ _, EmptyString => false
  | String a p', String b s' =>
      (if decide (canonicalize a = canonicalize b) then true else false)
      && matches_here p' s'
  end.

(** The alternatives between the parentheses of the regular expression. *)
Definition emptyTagAlternatives : list string :=
  [ "!doctype"; "area"; "base"; "basefont"; "br"; "wbr"; "col"; "frame";
    "hr"; "img"; "input"; "isindex"; "link"; "meta"; "param"; "embed" ].

(** [/(a|b|...)/i.test(s)]: the expression carries no anchor, so a match
    may start at any index of [s]. *)
Fixpoint regex_test (alts : list string) (s : string) : bool :=
  existsb (fun p => matches_here p s) alts
  || match s with
     | EmptyString => false
     | String _ s' => regex_test alts s'
     end.

Definition _isEmptyTag (payload : Payload) : bool :=
  if closed payload || name_falsy (nodeName payload) then true
  else if regex_test emptyTagAlternatives (name_string (nodeName payload)) then true
  else false.

(** The classifier as the specification words it: no name, or self-closed,
    or a name that _equals_ one of the void names up to case. *)
Fixpoint equal_nocase (p s : string) : bool :=
  match p, s with
  | EmptyString, EmptyString => true
  | String a p', String b s' =>
      (if decide (canonicalize a = canonicalize b) then true else false)
      && equal_nocase p' s'
  | _, _ => false
  end.

Definition isVoidOrSelfClosed_spec (payload : Payload) : bool :=
  name_falsy (nodeName payload)
  || closed payload
  || existsb (fun v => equal_nocase v (name_string (nodeName payload)))
             emptyTagAlternatives.

(** ** The scanner: lines 85 to 171 of [scanDocument] *)

Record TagSpan : Type := mkTag {
  name  : string;
  data  : Z;
  start : Z;
  end_  : Z
}.

#[global] Instance TagSpan_eq_dec : EqDecision TagSpan.
Proof. solve_decision. Defined.

(** An entry of [tagStack]: the pushed payload object together with the
    [unclosedLength] property the scanner adds to it later. *)
Record OpenTag : Type := mkOpen {
  tag_payload    : Payload;
  unclosedLength : option Z
}.

#[global] Instance OpenTag_eq_dec : EqDecision OpenTag.
Proof. solve_decision. Defined.

(** [!tag.unclosedLength]: [undefined] and [0] are falsy. *)
Definition length_falsy (u : option Z) : bool :=
  match u with
  | None => true
  | Some n => n =? 0
  end.

Record ScanState : Type := mkScan {
  tags     : list TagSpan;    (* in push order *)
  tagStack : list OpenTag;    (* head = top of the stack *)
  tagID    : Z;
  errors   : list string      (* what [console.error] received, in order *)
}.

#[global] Instance ScanState_eq_dec : EqDecision ScanState.
Proof. solve_decision. Defined.

Definition scan_init : ScanState :=
  {| tags := []; tagStack := []; tagID := 1; errors := [] |}.

(** Lines 100-110: set [unclosedLength] for the last tag of the stack. *)
Definition set_unclosedLength (textLength : Z) (payload : Payload)
    (stack : list OpenTag) : list OpenTag :=
  match stack with
  | [] => []
  | tag :: rest =>
      if length_falsy (unclosedLength tag) then
        let p := tag_payload tag in
        if decide (nodeName p = Some "HTML" \/ nodeName p = Some "BODY") then
          mkOpen p (Some (textLength - sourceOffset p)) :: rest
        else
          mkOpen p (Some (sourceOffset payload - sourceOffset p)) :: rest
      else stack
  end.

(** Lines 125-131: search from the top for the first entry with the name of
    the closing payload and splice it out. *)
Fixpoint findStartTag (n : option string) (stack : list OpenTag)
    : option (OpenTag * list OpenTag) :=
  match stack with
  | [] => None
  | tag :: rest =>
      if decide (nodeName (tag_payload tag) = n) then Some (tag, rest)
      else match findStartTag n rest with
           | Some (startTag, rest') => Some (startTag, tag :: rest')
           | None => None
           end
  end.

(** The callback given to [DOMHelpers.eachNode] (lines 93-148). *)
Definition eachNode_callback (textLength : Z) (st : ScanState)
    (payload : Payload) : ScanState :=
  if closing payload && _isEmptyTag payload then st
  else if (nodeType payload =? 1) && negb (name_falsy (nodeName payload)) then
    let stack := set_unclosedLength textLength payload (tagStack st) in
    if _isEmptyTag payload then
      {| tags := tags st ++
                 [ {| name := name_string (nodeName payload);
                      data := tagID st;
                      start := sourceOffset payload;
                      end_ := sourceOffset payload + sourceLength payload |} ];
         tagStack := stack;
         tagID := tagID st + 1;
         errors := errors st |}
    else if closing payload then
      match findStartTag (nodeName payload) stack with
      | Some (startTag, stack') =>
          {| tags := tags st ++
                     [ {| name := name_string (nodeName (tag_payload startTag));
                          data := tagID st;
                          start := sourceOffset (tag_payload startTag);
                          end_ := sourceOffset payload + sourceLength payload |} ];
             tagStack := stack';
             tagID := tagID st + 1;
             errors := errors st |}
      | None =>
          {| tags := tags st;
             tagStack := stack;
             tagID := tagID st;
             errors := errors st ++
                       [ "Unmatched end tag: " +:+ name_string (nodeName payload) ] |}
      end
    else
      {| tags := tags st;
         tagStack := mkOpen payload None :: stack;
         tagID := tagID st;
         errors := errors st |}
  else st.

(** [tag.unclosedLength || tag.sourceLength] *)
Definition unclosed_or_source (tag : OpenTag) : Z :=
  match unclosedLength tag with
  | Some n => if n =? 0 then sourceLength (tag_payload tag) else n
  | None => sourceLength (tag_payload tag)
  end.

(** Lines 151-160: pop what is left on the stack. *)
Fixpoint drain (stack : list OpenTag) (tgs : list TagSpan) (id : Z)
    : list TagSpan * Z :=
  match stack with
  | [] => (tgs, id)
  | tag :: rest =>
      drain rest
        (tgs ++ [ {| name := name_string (nodeName (tag_payload tag));
                     data := id;
                     start := sourceOffset (tag_payload tag);
                     end_ := sourceOffset (tag_payload tag)
                             + unclosed_or_source tag |} ])
        (id + 1)
  end.

(** The comparator of lines 163-171. *)
Definition compare_start (a b : TagSpan) : Z :=
  if start a <? start b then -1
  else if start a =? start b then 0
  else 1.

(** [Array.prototype.sort] with a consistent comparator. ECMAScript (from
    2019 on) requires the sort to be stable, which fixes the result; it is
    computed here by insertion, an element going in front of the first one
    it does not compare greater than. *)
Fixpoint sort_insert (cmp : TagSpan -> TagSpan -> Z) (x : TagSpan)
    (l : list TagSpan) : list TagSpan :=
  match l with
  | [] => [x]
  | y :: l' => if cmp x y <=? 0 then x :: y :: l' else y :: sort_insert cmp x l'
  end.

Fixpoint array_sort (cmp : TagSpan -> TagSpan -> Z) (l : list TagSpan)
    : list TagSpan :=
  match l with
  | [] => []
  | x :: l' => sort_insert cmp x (array_sort cmp l')
  end.

(** The state after [eachNode] has delivered every node. *)
Definition scanNodes (textLength : Z) (nodes : list Payload) : ScanState :=
  fold_left (eachNode_callback textLength) nodes scan_init.

(** The [tags] array just before it is sorted. *)
Definition emittedTags (text : string) (nodes : list Payload) : list TagSpan :=
  let st := scanNodes (Z.of_nat (String.length text)) nodes in
  fst (drain (tagStack st) (tags st) (tagID st)).

(** The scan of [text], [nodes] being what [DOMHelpers.eachNode] yields. *)
Definition scanText (text : string) (nodes : list Payload) : list TagSpan :=
  array_sort compare_start (emittedTags text nodes).

(** What the scan sent to [console.error]. *)
Definition scanErrors (text : string) (nodes : list Payload) : list string :=
  errors (scanNodes (Z.of_nat (String.length text)) nodes).

(** Payload constructors for the three kinds of tag the tokenizer reports. *)
Definition openTag (n : string) (off len : Z) : Payload :=
  mkPayload 1 (Some n) false false off len.
Definition closeTag (n : string) (off len : Z) : Payload :=
  mkPayload 1 (Some n) false true off len.
Definition textNode (off len : Z) : Payload :=
  mkPayload 3 None false false off len.

(** ** The rewriting of the text: lines 192 to 206 of
    [generateInstrumentedHTML] *)

(** [s.substr(from, len)]; [len = None] when the argument is left out. *)
Definition substr (s : string) (from : Z) (len : option Z) : string :=
  let size := Z.of_nat (String.length s) in
  let from' := if from <? 0 then Z.max (size + from) 0 else Z.min from size in
  let len' := match len with
              | None => size - from'
              | Some l => Z.min (Z.max l 0) (size - from')
              end in
  String.substring (Z.to_nat from') (Z.to_nat len') s.

(** Number to string, for the integers tag ids are. *)
Definition number_to_string (n : Z) : string :=
  NilZero.string_of_int (Z.to_int n).

(** [" data-brackets-id='" + tag.data + "'"] *)
Definition attrText (tag : TagSpan) : string :=
  " data-brackets-id='" +:+ number_to_string (data tag) +:+ "'".

(** The callback of [tags.forEach] (lines 197-204), on the pair
    [(gen, insertCount)]. *)
Definition forEach_callback (acc : string * Z) (tag : TagSpan) : string * Z :=
  let '(gen, insertCount) := acc in
  let insertIndex :=
    start tag + Z.of_nat (String.length (name tag)) + 1 + insertCount in
  (substr gen 0 (Some insertIndex) +:+ attrText tag +:+ substr gen insertIndex None,
   insertCount + Z.of_nat (String.length (attrText tag))).

(** Lines 192-206 on the text and the copied tag list. *)
Definition instrument (text : string) (tgs : list TagSpan) : string :=
  fst (fold_left forEach_callback tgs (text, 0)).

(** ** The scan cache and the exported functions *)

(** The part of a [Document] the module reads: [doc.file.fullPath],
    [doc.diskTimestamp] and [doc.getText()]. Timestamps are only ever
    compared with [===]: a [Z] stands for what [===] tells apart. *)
Record Document : Type := mkDoc {
  fullPath      : string;
  diskTimestamp : Z;
  getText       : string
}.

(** A value of [_cachedValues]: the object [{timestamp, tags}]. *)
Record Snapshot : Type := mkSnapshot {
  timestamp     : Z;
  snapshot_tags : list TagSpan
}.

(** The state the module works on: its cache, the number of times it has
    called [DOMHelpers.eachNode], and what it has sent to [console.error]. *)
Record World : Type := mkWorld {
  _cachedValues  : gmap string Snapshot;
  eachNode_calls : nat;
  console        : list string
}.

Definition world_init : World :=
  {| _cachedValues := ∅; eachNode_calls := 0; console := [] |}.

(** The part of an [Editor] the module reads: [editor.document]. *)
Record Editor : Type := mkEditor { document : Document }.

Section Exports.

(** [DOMHelpers.eachNode]: the nodes it delivers for a text, in order. *)
Variable eachNode : string -> list Payload.

(** Lines 85-179: scan afresh and store the snapshot. *)
Definition rescan (doc : Document) (w : World) : list TagSpan * World :=
  let text := getText doc in
  let nodes := eachNode text in
  let tgs := scanText text nodes in
  (tgs,
   {| _cachedValues :=
        <[ fullPath doc := {| timestamp := diskTimestamp doc;
                              snapshot_tags := tgs |} ]> (_cachedValues w);
      eachNode_calls := S (eachNode_calls w);
      console := console w ++ scanErrors text nodes |}).

Definition scanDocument (doc : Document) (w : World) : list TagSpan * World :=
  match _cachedValues w !! fullPath doc with
  | Some cachedValue =>
      if decide (timestamp cachedValue = diskTimestamp doc)
      then (snapshot_tags cachedValue, w)
      else rescan doc w
  | None => rescan doc w
  end.

Definition generateInstrumentedHTML (doc : Document) (w : World)
    : string * World :=
  let '(tgs, w') := scanDocument doc w in
  (instrument (getText doc) tgs, w').

(** [MarkedTextTracker]: its state and the two functions the module calls. *)
Variable Tracker : Type.
Variable Range : Type.
Variable Pos : Type.
Variable range_data : Range -> Z.

Variable markText : Editor -> list TagSpan -> string -> Tracker -> Tracker.
Variable getRangesAtDocumentPos :
  Editor -> Pos -> string -> Tracker -> list Range.

Definition _markText (editor : Editor) (w : World) (tr : Tracker)
    : World * Tracker :=
  match _cachedValues w !! fullPath (document editor) with
  | None =>
      ({| _cachedValues := _cachedValues w;
          eachNode_calls := eachNode_calls w;
          console := console w ++
            [ "Couldn't find the tag information for "
              +:+ fullPath (document editor) ] |},
       tr)
  | Some cache =>
      (w, markText editor (snapshot_tags cache) "htmlTagID" tr)
  end.

Definition _getTagIDAtDocumentPos (editor : Editor) (pos : Pos)
    (tr : Tracker) : Z :=
  match getRangesAtDocumentPos editor pos "htmlTagID" tr with
  | r :: _ => range_data r
  | [] => -1
  end.

(** The worlds the module can be in: it starts with an empty cache, and
    only [scanDocument] (also through [generateInstrumentedHTML]) and the
    error report of [_markText] change it. *)
Inductive reachable : World -> Prop :=
| reach_init : reachable world_init
| reach_scan doc w : reachable w -> reachable (snd (scanDocument doc w))
| reach_report msg w :
    reachable w ->
    reachable {| _cachedValues := _cachedValues w;
                 eachNode_calls := eachNode_calls w;
                 console := console w ++ [msg] |}.

End Exports.

Arguments _markText {Tracker} markText editor w tr.
Arguments _getTagIDAtDocumentPos {Tracker Range Pos} range_data
  getRangesAtDocumentPos editor pos tr.

(** ** Vocabulary of the statements *)

(** The test of line 98: the payload is an element that has a name. *)
Definition element_event (payload : Payload) : bool :=
  (nodeType payload =? 1) && negb (name_falsy (nodeName payload)).

(** A small tokenizer for the examples: it knows one tag. *)
Definition sample_eachNode (text : string) : list Payload :=
  if decide (text = "<br>") then [openTag "BR" 0 4]
  else if decide (text = "") then []
  else [textNode 0 (Z.of_nat (String.length text))].

(** A node stream in document order: every node lies in the text, has a
    positive length, and starts at or after [pos], where its predecessor
    ended. *)
Fixpoint document_order (textLength pos : Z) (nodes : list Payload) : Prop :=
  match nodes with
  | [] => True
  | p :: rest =>
      pos <= sourceOffset p /\
      0 < sourceLength p /\
      sourceOffset p + sourceLength p <= textLength /\
      document_order textLength (sourceOffset p + sourceLength p) rest
  end.

(** The order [tags.sort] establishes. *)
Definition le_start (a b : TagSpan) : Prop := start a <= start b.

(** What holds of an entry of [tagStack] once the nodes up to [pos] have
    been seen. *)
Definition open_ok (pos : Z) (e : OpenTag) : Prop :=
  0 < sourceLength (tag_payload e) /\
  sourceOffset (tag_payload e) + sourceLength (tag_payload e) <= pos /\
  match unclosedLength e with
  | Some u => 0 < u
  | None => True
  end.

(** The invariant of the scanning loop. *)
Definition scan_inv (textLength pos : Z) (st : ScanState) : Prop :=
  pos <= textLength /\
  Forall (fun t => start t < end_ t) (tags st) /\
  Forall (open_ok pos) (tagStack st).

(** Identities are handed out from 1, one after the other. *)
Definition ids_inv (tgs : list TagSpan) (id : Z) : Prop :=
  1 <= id /\ map data tgs = seqZ 1 (id - 1).

(** The code units of a string. *)
Definition chars (s : string) : list ascii := list_ascii_of_string s.

(** The string [s] with [a] inserted at index [i] (at the end when [s] is
    shorter than [i]). *)
Fixpoint insertAt (i : nat) (a s : string) : string :=
  match i, s with
  | O, _ => a +:+ s
  | S i', String c s' => String c (insertAt i' a s')
  | S _, EmptyString => a
  end.

(** The total length of the attribute strings of the spans [prior]. *)
Definition inserted_length (prior : list TagSpan) : Z :=
  foldr (fun t acc => Z.of_nat (String.length (attrText t)) + acc) 0 prior.

(** The generator as the specification words it: the spans are taken in
    list order, and the attribute string of a span goes in at index
    start + length of the name + 1 + total length of the attribute strings
    inserted before it, [prior] being the spans already dealt with. *)
Fixpoint insert_attributes (prior todo : list TagSpan) (gen : string) : string :=
  match todo with
  | [] => gen
  | t :: rest =>
      insert_attributes (prior ++ [t]) rest
        (insertAt (Z.to_nat (start t + Z.of_nat (String.length (name t)) + 1
                             + inserted_length prior))
                  (attrText t) gen)
  end.

(** The index of the original text at which the attribute of a span goes
    in: just after the [<] and the name. *)
Definition name_end (t : TagSpan) : Z :=
  start t + Z.of_nat (String.length (name t)) + 1.

(** The room a tag of a given name takes at least: the [<] and the name. *)
Definition name_width (n : string) : Z := Z.of_nat (String.length n) + 1.

Section Widths.

(** A number of code units that the opening of a tag of a given name is
    known to cover. *)
Variable width : string -> Z.

(** The opening of an element is inside its source text. *)
Definition width_fits (p : Payload) : Prop :=
  element_event p = true ->
  0 < width (name_string (nodeName p)) <= sourceLength p.

(** The stretch of text the opening covers, for a span and for an entry of
    the stack. *)
Definition span_interval (t : TagSpan) : Z * Z :=
  (start t, start t + width (name t)).

Definition open_interval (e : OpenTag) : Z * Z :=
  let p := tag_payload e in
  (sourceOffset p, sourceOffset p + width (name_string (nodeName p))).

Definition scan_intervals (st : ScanState) : list (Z * Z) :=
  map span_interval (tags st) ++ map open_interval (tagStack st).

End Widths.

(** The name of an element lies in its source text, after the [<]. *)
Definition name_fits (p : Payload) : Prop := width_fits name_width p.

Definition disjoint (a b : Z * Z) : Prop := a.2 <= b.1 \/ b.2 <= a.1.

(** Intervals that lie before [pos] and do not overlap. *)
Definition intervals_ok (pos : Z) (l : list (Z * Z)) : Prop :=
  Forall (fun iv => 0 <= iv.1 /\ iv.1 < iv.2 /\ iv.2 <= pos) l /\
  ForallOrdPairs disjoint l.

(** The order of a list in which no two spans start at the same offset. *)
Definition lt_start (a b : TagSpan) : Prop := start a < start b.

(** What a cached tag list is like: identities are positive, and the name
    of each span ends before the next span starts. *)
Definition spans_ok (tgs : list TagSpan) : Prop :=
  Forall (fun t => 0 <= start t /\ 0 < data t) tgs /\
  StronglySorted (fun a b => name_end a <= start b) tgs.

(** An instrumented text cut into the pieces of the original text and the
    attribute strings that were injected between them. *)
Inductive Segment : Type :=
| Original (s : string)
| Injected (s : string).

Fixpoint render (segs : list Segment) : string :=
  match segs with
  | [] => ""
  | Original s :: rest => s +:+ render rest
  | Injected s :: rest => s +:+ render rest
  end.

Fixpoint delete_injected (segs : list Segment) : string :=
  match segs with
  | [] => ""
  | Original s :: rest => s +:+ delete_injected rest
  | Injected _ :: rest => delete_injected rest
  end.

Fixpoint injected_strings (segs : list Segment) : list string :=
  match segs with
  | [] => []
  | Original _ :: rest => injected_strings rest
  | Injected s :: rest => s :: injected_strings rest
  end.

Definition str_take (n : nat) (s : string) : string := String.substring 0 n s.
Definition str_drop (n : nat) (s : string) : string :=
  String.substring n (String.length s - n) s.

(** The pieces of an instrumented text: [rest] is the original text from
    index [cur] on, and the attribute of each span goes in at its
    [name_end]. *)
Fixpoint weave (rest : string) (cur : Z) (tgs : list TagSpan) : list Segment :=
  match tgs with
  | [] => [Original rest]
  | t :: tgs' =>
      let k := Z.to_nat (name_end t - cur) in
      Original (str_take k rest) :: Injected (attrText t) ::
      weave (str_drop k rest)
            (cur + Z.of_nat (String.length (str_take k rest))) tgs'
  end.

(** ** Stripping the injected attributes by their syntax

    The text with every match of [/ data-brackets-id='\d+'/] deleted, as
    [s.replace(/ data-brackets-id='\d+'/g, "")] computes it. *)

Definition attr_prefix : string := " data-brackets-id='".

Definition is_digit (c : ascii) : bool :=
  let n := nat_of_ascii c in ((48 <=? n)%nat && (n <=? 57)%nat)%bool.

Fixpoint digits_only (s : string) : bool :=
  match s with
  | EmptyString => true
  | String c s' => is_digit c && digits_only s'
  end.

(** What is left of [s] after the literal [p] at its start. *)
Fixpoint after_prefix (p s : string) : option string :=
  match p, s with
  | EmptyString, _ => Some s
  | String _ _, EmptyString => None
  | String a p', String b s' =>
      if decide (a = b) then after_prefix p' s' else None
  end.

(** The length of the match of [\d+'] at the start of [s]; [seen] tells
    that a digit has been read already. *)
Fixpoint digits_quote (seen : bool) (s : string) : option nat :=
  match s with
  | EmptyString => None
  | String c s' =>
      if is_digit c then S <$> digits_quote true s'
      else if seen && (if decide (c = "'"%char) then true else false)
           then Some 1%nat
           else None
  end.

(** The length of the match of the whole expression at the start of [s]. *)
Definition match_length (s : string) : option nat :=
  match after_prefix attr_prefix s with
  | Some rest =>
      (fun n => (String.length attr_prefix + n)%nat) <$> digits_quote false rest
  | None => None
  end.

(** [skip] counts the code units of the match at hand still to delete. *)
Fixpoint strip_go (skip : nat) (s : string) : string :=
  match s with
  | EmptyString => EmptyString
  | String c s' =>
      match skip with
      | S k => strip_go k s'
      | O =>
          match match_length s with
          | Some (S k) => strip_go k s'
          | _ => String c (strip_go 0 s')
          end
      end
  end.

Definition stripInjected (s : string) : string := strip_go 0 s.

(** The expression matches somewhere in [s]. *)
Fixpoint has_attribute (s : string) : bool :=
  (if match_length s is Some _ then true else false)
  || match s with
     | EmptyString => false
     | String _ s' => has_attribute s'
     end.

(** No match starts inside [u] when [x] follows it. *)
Fixpoint quiet (u x : string) : Prop :=
  match u with
  | EmptyString => True
  | String c u' => match_length (u +:+ x) = None /\ quiet u' x
  end.

Arguments match_length : simpl never.
Arguments attrText : simpl never.

(** ** Vocabulary of the further properties *)

(** The nodes the callback does not return from at once: those that pass
    the tests of lines 95 and 98. *)
Definition relevant (p : Payload) : bool :=
  negb (closing p && _isEmptyTag p) && element_event p.

(** The nodes that bring a span about: the tags classified as empty and the
    opening tags. *)
Definition opener (p : Payload) : bool :=
  relevant p && (_isEmptyTag p || negb (closing p)).

(** The closing tags that can take the entry of [o] off the stack. *)
Definition closes (o p : Payload) : bool :=
  relevant p && closing p
  && (if decide (nodeName p = nodeName o) then true else false).

(** A string with its letters in upper case, as a list of code units. *)
Definition upper (s : string) : list ascii := map canonicalize (chars s).

(** What identifies a span, and the same for the node that opens it. *)
Definition span_key (t : TagSpan) : string * Z := (name t, start t).
Definition payload_key (p : Payload) : string * Z :=
  (name_string (nodeName p), sourceOffset p).
Definition open_key (e : OpenTag) : string * Z := payload_key (tag_payload e).

(** A span without its identity. *)
Definition span_extent (t : TagSpan) : string * Z * Z := (name t, start t, end_ t).

(** Node streams in which every opening tag has its closing tag, properly
    nested, with the extents of the spans in the order the tags close. *)
Inductive nested : list Payload -> list (string * Z * Z) -> Prop :=
| nested_nil : nested [] []
| nested_skip p w s :
    relevant p = false -> nested w s -> nested (p :: w) s
| nested_void p w s :
    relevant p = true -> _isEmptyTag p = true ->
    nested w s ->
    nested (p :: w)
      ((name_string (nodeName p), sourceOffset p,
        sourceOffset p + sourceLength p) :: s)
| nested_element o inner c w s1 s2 :
    relevant o = true -> _isEmptyTag o = false -> closing o = false ->
    relevant c = true -> _isEmptyTag c = false -> closing c = true ->
    nodeName c = nodeName o ->
    nested inner s1 -> nested w s2 ->
    nested (o :: inner ++ c :: w)
      (s1 ++ (name_string (nodeName o), sourceOffset o,
              sourceOffset c + sourceLength c) :: s2).

(** A node that lies in a text of the given length. *)
Definition node_within (textLength : Z) (p : Payload) : Prop :=
  0 <= sourceOffset p /\ 0 <= sourceLength p /\
  sourceOffset p + sourceLength p <= textLength.

(** An entry of the stack whose tag, and whose unclosed extent once it is
    set, lie in the text. *)
Definition open_within (textLength : Z) (e : OpenTag) : Prop :=
  node_within textLength (tag_payload e) /\
  match unclosedLength e with
  | Some u => sourceOffset (tag_payload e) + u <= textLength
  | None => True
  end.

Definition span_within (textLength : Z) (t : TagSpan) : Prop :=
  0 <= start t /\ end_ t <= textLength.

(** The extent the scanner records for an open tag when the element [p]
    comes next (lines 104-108). *)
Definition unclosed_extent (textLength : Z) (o p : Payload) : Z :=
  if decide (nodeName o = Some "HTML" \/ nodeName o = Some "BODY")
  then textLength - sourceOffset o
  else sourceOffset p - sourceOffset o.

(** The code units of the text from the [<] of a tag to the end of its
    name. *)
Definition tag_opening (text : string) (t : TagSpan) : string :=
  str_take (S (String.length (name t))) (str_drop (Z.to_nat (start t)) text).

(** * Verification *)

(** ** The tag classifier *)

Lemma equal_nocase_matches_here p s :
  equal_nocase p s = true -> matches_here p s = true.
Proof.
  revert s. induction p as [|a p IH]; intros [|b s]; simpl; try done.
  intros [H1 H2]%andb_true_iff. rewrite H1. simpl. by apply IH.
Qed.

Lemma regex_test_here alts s :
  existsb (fun p => matches_here p s) alts = true -> regex_test alts s = true.
Proof. intros H. destruct s; simpl in *; by rewrite H. Qed.

Lemma existsb_equal_regex_test alts s :
  existsb (fun v => equal_nocase v s) alts = true -> regex_test alts s = true.
Proof.
  intros H. apply regex_test_here.
  apply existsb_exists in H as (v & Hv & Heq).
  apply existsb_exists. exists v. split; [done|].
  by apply equal_nocase_matches_here.
Qed.

(** Whatever the specification classifies as void or self-closed, the code
    does too: the two only differ where the code says yes. *)
Lemma isVoidOrSelfClosed_spec_sound payload :
  isVoidOrSelfClosed_spec payload = true -> _isEmptyTag payload = true.
Proof.
  unfold isVoidOrSelfClosed_spec, _isEmptyTag.
  destruct (closed payload); [reflexivity|].
  destruct (name_falsy (nodeName payload)); [reflexivity|].
  intros H. rewrite existsb_equal_regex_test; [reflexivity|exact H].
Qed.

(** C2 (the code departs from the claim). A named node that is not
    self-closed and whose name, TEXTAREA, is none of the void names is
    classified as empty all the same, because the name contains "area". *)
Theorem C2_isEmptyTag_textarea :
  let payload := mkPayload 1 (Some "TEXTAREA") false false 0 10 in
  _isEmptyTag payload = true /\ isVoidOrSelfClosed_spec payload = false.
Proof. by vm_compute. Qed.

(** ** The scanner on the documents of the specification *)

(** C4 (counterexample). For "<div><p>text" the scan does yield two spans,
    but not both of them end at the end of the document. *)
Lemma C4_ends_not_at_end_of_document :
  let text := "<div><p>text" in
  let spans := scanText text [openTag "DIV" 0 5; openTag "P" 5 3] in
  ~ (length spans = 2%nat /\
     Forall (fun t => end_ t = Z.of_nat (String.length text)) spans).
Proof.
  intros text spans [_ H]. vm_compute in H.
  apply Forall_cons in H as [H _]. simpl in H. discriminate H.
Qed.

(** C4 (amended). Scanning "<div><p>text" yields exactly two spans; in the
    drain the P span is pushed first and gets identity 1, the DIV span gets
    identity 2; the P span ends where its own tag ends (8), and the DIV span
    ends where the next element, P, starts (5). A trailing text node changes
    nothing. *)
Theorem C4_unclosed_tags_drained :
  let text := "<div><p>text" in
  let div := {| name := "DIV"; data := 2; start := 0; end_ := 5 |} in
  let p := {| name := "P"; data := 1; start := 5; end_ := 8 |} in
  emittedTags text [openTag "DIV" 0 5; openTag "P" 5 3] = [p; div] /\
  scanText text [openTag "DIV" 0 5; openTag "P" 5 3] = [div; p] /\
  emittedTags text [openTag "DIV" 0 5; openTag "P" 5 3; textNode 8 4] = [p; div] /\
  scanText text [openTag "DIV" 0 5; openTag "P" 5 3; textNode 8 4] = [div; p].
Proof. by vm_compute. Qed.

Lemma set_unclosedLength_payloads textLength payload stack :
  map tag_payload (set_unclosedLength textLength payload stack)
  = map tag_payload stack.
Proof.
  destruct stack as [|tag rest]; simpl; [done|].
  destruct (length_falsy _); [|done].
  by destruct (decide _).
Qed.

Lemma set_unclosedLength_app textLength payload tag above below :
  set_unclosedLength textLength payload ((tag :: above) ++ below)
  = set_unclosedLength textLength payload (tag :: above) ++ below.
Proof.
  simpl. destruct (length_falsy _); [|done]. by destruct (decide _).
Qed.

Lemma findStartTag_splice n above startTag below :
  Forall (fun t => nodeName (tag_payload t) <> n) above ->
  nodeName (tag_payload startTag) = n ->
  findStartTag n (above ++ startTag :: below) = Some (startTag, above ++ below).
Proof.
  intros Habove Hname. induction Habove as [|t above Ht _ IH]; simpl.
  - by rewrite decide_True.
  - rewrite decide_False by done. by rewrite IH.
Qed.

Lemma set_unclosedLength_cons textLength payload tag rest :
  exists tag',
    set_unclosedLength textLength payload (tag :: rest) = tag' :: rest /\
    tag_payload tag' = tag_payload tag.
Proof.
  simpl. destruct (length_falsy _); [|by eexists].
  destruct (decide _); by eexists.
Qed.

Lemma set_unclosedLength_Forall (P : Payload -> Prop) textLength payload stack :
  Forall (fun t => P (tag_payload t)) stack ->
  Forall (fun t => P (tag_payload t))
    (set_unclosedLength textLength payload stack).
Proof.
  intros H. destruct H as [|tag rest Htag Hrest]; simpl; [constructor|].
  destruct (length_falsy _); [|by constructor].
  destruct (decide _); by constructor.
Qed.

(** The search of a closing tag on the stack whose top has just been
    patched. *)
Lemma findStartTag_patched textLength payload above startTag below :
  nodeName (tag_payload startTag) = nodeName payload ->
  Forall (fun t => nodeName (tag_payload t) <> nodeName payload) above ->
  exists startTag',
    findStartTag (nodeName payload)
      (set_unclosedLength textLength payload (above ++ startTag :: below))
    = Some (startTag', set_unclosedLength textLength payload above ++ below) /\
    tag_payload startTag' = tag_payload startTag.
Proof.
  intros Hname Habove. destruct above as [|top above].
  - destruct (set_unclosedLength_cons textLength payload startTag below)
      as (startTag' & Heq & Hpayload).
    exists startTag'. split; [|done].
    change ([] ++ startTag :: below) with (startTag :: below). rewrite Heq.
    apply (findStartTag_splice _ []); [constructor|congruence].
  - exists startTag. split; [|done].
    change ((top :: above) ++ startTag :: below)
      with ((top :: above) ++ (startTag :: below)).
    rewrite set_unclosedLength_app.
    apply findStartTag_splice; [|done].
    by apply (set_unclosedLength_Forall (fun p => nodeName p <> nodeName payload)).
Qed.

Lemma findStartTag_None n stack :
  Forall (fun t => nodeName (tag_payload t) <> n) stack ->
  findStartTag n stack = None.
Proof.
  induction 1 as [|t stack Ht _ IH]; simpl; [done|].
  rewrite decide_False by done. by rewrite IH.
Qed.

Lemma isEmptyTag_false_name payload :
  _isEmptyTag payload = false -> name_falsy (nodeName payload) = false.
Proof.
  unfold _isEmptyTag. destruct (closed payload); simpl; [done|].
  by destruct (name_falsy _).
Qed.

(** C5. A closing event of an element that is not classified as empty is
    matched to the topmost stack entry of its name: that entry is spliced
    out, the entries above it stay on the stack (the same payloads, in the
    same order) and so do those below, and a span from the start of the
    matched entry to the end of the closing tag is pushed with the next
    identity. For "<div><span>x</span></div>" the scan yields two spans; the
    SPAN span has the smaller identity, and it lies inside the DIV span. *)
Theorem C5_close_matches_innermost :
  (forall textLength st payload above startTag below,
     nodeType payload = 1 ->
     closing payload = true ->
     _isEmptyTag payload = false ->
     tagStack st = above ++ startTag :: below ->
     nodeName (tag_payload startTag) = nodeName payload ->
     Forall (fun t => nodeName (tag_payload t) <> nodeName payload) above ->
     let st' := eachNode_callback textLength st payload in
     tags st' = tags st ++
       [ {| name := name_string (nodeName payload);
            data := tagID st;
            start := sourceOffset (tag_payload startTag);
            end_ := sourceOffset payload + sourceLength payload |} ] /\
     tagID st' = tagID st + 1 /\
     tagStack st' = set_unclosedLength textLength payload above ++ below /\
     map tag_payload (tagStack st') = map tag_payload (above ++ below)) /\
  (let text := "<div><span>x</span></div>" in
   let nodes := [openTag "DIV" 0 5; openTag "SPAN" 5 6; textNode 11 1;
                 closeTag "SPAN" 12 7; closeTag "DIV" 19 6] in
   exists div span,
     scanText text nodes = [div; span] /\
     name div = "DIV" /\ name span = "SPAN" /\
     data span < data div /\
     start div < start span /\ end_ span <= end_ div).
Proof.
  split.
  - intros textLength st payload above startTag below Htype Hclosing Hempty
      Hstack Hname Habove st'.
    assert (Hst' : st' =
      {| tags := tags st ++
           [ {| name := name_string (nodeName payload);
                data := tagID st;
                start := sourceOffset (tag_payload startTag);
                end_ := sourceOffset payload + sourceLength payload |} ];
         tagStack := set_unclosedLength textLength payload above ++ below;
         tagID := tagID st + 1;
         errors := errors st |}).
    { unfold st', eachNode_callback.
      rewrite Hclosing, Hempty, Htype, (isEmptyTag_false_name _ Hempty). simpl.
      rewrite Hstack.
      destruct (findStartTag_patched textLength payload above startTag below)
        as (startTag' & -> & ->); [done|done|]. by rewrite Hname. }
    rewrite Hst'. simpl. repeat split; try done.
    rewrite !map_app. by rewrite set_unclosedLength_payloads.
  - eexists _, _. vm_compute. repeat split; done.
Qed.

Lemma C5_close_matches_innermost_witness :
  let st := {| tags := [];
               tagStack := [ mkOpen (openTag "P" 11 3) None;
                             mkOpen (openTag "SPAN" 5 6) None;
                             mkOpen (openTag "DIV" 0 5) None ];
               tagID := 1; errors := [] |} in
  tagStack (eachNode_callback 40 st (closeTag "SPAN" 20 7))
  = [ mkOpen (openTag "P" 11 3) (Some 9); mkOpen (openTag "DIV" 0 5) None ].
Proof.
  intros st.
  refine (proj1 (proj2 (proj2 (proj1 C5_close_matches_innermost 40 st
    (closeTag "SPAN" 20 7) [mkOpen (openTag "P" 11 3) None]
    (mkOpen (openTag "SPAN" 5 6) None) [mkOpen (openTag "DIV" 0 5) None]
    _ _ _ _ _ _)))); try reflexivity.
  repeat constructor. simpl. discriminate.
Defined.

(** ** Unmatched closing tags *)

(** C7 (counterexample). An unmatched closing tag does change the scanner's
    state beyond the diagnostic: it sets the unclosed length of the entry on
    top of the stack, and the scan of the same text ends differently with
    and without the stray tag. *)
Lemma C7_unmatched_close_changes_state :
  let text := "<div>text</span>" in
  let before := [openTag "DIV" 0 5; textNode 5 4] in
  let stray := closeTag "SPAN" 9 7 in
  let st := scanNodes 16 before in
  Forall (fun t => nodeName (tag_payload t) <> nodeName stray) (tagStack st) /\
  tagStack (eachNode_callback 16 st stray) <> tagStack st /\
  scanText text (before ++ [stray]) <> scanText text before.
Proof.
  vm_compute. split; [|split].
  - repeat constructor. discriminate.
  - discriminate.
  - discriminate.
Qed.

(** C7 (amended). A closing event of a named element that is not classified
    as empty and whose name is on no stack entry pushes no span and consumes
    no identity; it is reported, and the stack keeps the same payloads in the
    same order, only the unclosed length of its top entry being set as for
    any other element event. The scan goes on with the nodes that follow.
    Scanning "<div></span></div>" yields one span, for DIV, over the whole
    input. *)
Theorem C7_unmatched_close_dropped :
  (forall textLength st payload,
     nodeType payload = 1 ->
     closing payload = true ->
     _isEmptyTag payload = false ->
     Forall (fun t => nodeName (tag_payload t) <> nodeName payload) (tagStack st) ->
     eachNode_callback textLength st payload =
       {| tags := tags st;
          tagStack := set_unclosedLength textLength payload (tagStack st);
          tagID := tagID st;
          errors := errors st ++
            [ "Unmatched end tag: " +:+ name_string (nodeName payload) ] |} /\
     map tag_payload (set_unclosedLength textLength payload (tagStack st))
     = map tag_payload (tagStack st)) /\
  (forall textLength before payload after,
     scanNodes textLength (before ++ payload :: after) =
     fold_left (eachNode_callback textLength) after
       (eachNode_callback textLength (scanNodes textLength before) payload)) /\
  (let text := "<div></span></div>" in
   let nodes := [openTag "DIV" 0 5; closeTag "SPAN" 5 7; closeTag "DIV" 12 6] in
   scanText text nodes =
     [ {| name := "DIV"; data := 1; start := 0;
          end_ := Z.of_nat (String.length text) |} ] /\
   scanErrors text nodes = [ "Unmatched end tag: SPAN" ]).
Proof.
  split; [|split].
  - intros textLength st payload Htype Hclosing Hempty Hstack. split.
    + unfold eachNode_callback.
      rewrite Hclosing, Hempty, Htype, (isEmptyTag_false_name _ Hempty). simpl.
      rewrite findStartTag_None; [done|].
      by apply (set_unclosedLength_Forall (fun p => nodeName p <> nodeName payload)).
    + apply set_unclosedLength_payloads.
  - intros. unfold scanNodes. by rewrite fold_left_app.
  - by vm_compute.
Qed.

Lemma C7_unmatched_close_dropped_witness :
  let st := scanNodes 18 [openTag "DIV" 0 5] in
  eachNode_callback 18 st (closeTag "SPAN" 5 7) =
    {| tags := [];
       tagStack := [ mkOpen (openTag "DIV" 0 5) (Some 5) ];
       tagID := 1;
       errors := [ "Unmatched end tag: SPAN" ] |}.
Proof.
  intros st.
  refine (proj1 (proj1 C7_unmatched_close_dropped 18 st (closeTag "SPAN" 5 7)
    _ _ _ _)); try reflexivity.
  repeat constructor. simpl. discriminate.
Defined.

(** ** The scan cache *)

Lemma scanNodes_no_element textLength nodes st :
  Forall (fun p => element_event p = false) nodes ->
  fold_left (eachNode_callback textLength) nodes st = st.
Proof.
  induction 1 as [|p nodes Hp _ IH]; simpl; [done|].
  assert (eachNode_callback textLength st p = st) as ->; [|done].
  unfold eachNode_callback. unfold element_event in Hp. rewrite Hp.
  by destruct (closing p && _isEmptyTag p).
Qed.

Lemma scanText_no_element text nodes :
  Forall (fun p => element_event p = false) nodes ->
  scanText text nodes = [] /\ scanErrors text nodes = [].
Proof.
  intros H. unfold scanText, scanErrors, emittedTags, scanNodes.
  by rewrite scanNodes_no_element.
Qed.

Section Cache.

Variable eachNode : string -> list Payload.

(** C3. A call of [scanDocument] that finds a snapshot under the
    document's path whose timestamp is equal to the document's returns the
    cached list and leaves the module's state as it is: the tokenizer is
    not called. A call that finds no snapshot, or one with a different
    timestamp (smaller or greater), calls the tokenizer on the document's
    current text, stores the snapshot (timestamp, new list) under the path
    in place of what was there, leaves the other snapshots alone, and
    returns the new list. *)
Theorem C3_scanDocument_cache (doc : Document) (w : World) :
  (forall cachedValue,
     _cachedValues w !! fullPath doc = Some cachedValue ->
     timestamp cachedValue = diskTimestamp doc ->
     scanDocument eachNode doc w = (snapshot_tags cachedValue, w)) /\
  ((_cachedValues w !! fullPath doc = None \/
    exists cachedValue,
      _cachedValues w !! fullPath doc = Some cachedValue /\
      (timestamp cachedValue < diskTimestamp doc \/
       diskTimestamp doc < timestamp cachedValue)) ->
   let newList := scanText (getText doc) (eachNode (getText doc)) in
   let w' := snd (scanDocument eachNode doc w) in
   fst (scanDocument eachNode doc w) = newList /\
   _cachedValues w' !! fullPath doc =
     Some {| timestamp := diskTimestamp doc; snapshot_tags := newList |} /\
   (forall path, path <> fullPath doc ->
      _cachedValues w' !! path = _cachedValues w !! path) /\
   eachNode_calls w' = S (eachNode_calls w)).
Proof.
  split.
  - intros cachedValue Hlookup Htime. unfold scanDocument.
    rewrite Hlookup. by rewrite decide_True.
  - intros Hmiss newList w'.
    assert (scanDocument eachNode doc w = rescan eachNode doc w) as Hscan.
    { unfold scanDocument.
      destruct Hmiss as [-> | (cachedValue & -> & Hne)]; [done|].
      rewrite decide_False; [done|lia]. }
    unfold w'. rewrite Hscan. unfold rescan. simpl.
    repeat split; [by rewrite lookup_insert_eq|].
    intros path Hpath. by rewrite lookup_insert_ne.
Qed.

End Cache.

Lemma C3_scanDocument_cache_witness :
  let w := {| _cachedValues :=
                {[ "/index.html" := {| timestamp := 7; snapshot_tags := [] |} ]};
              eachNode_calls := 1; console := [] |} in
  scanDocument sample_eachNode (mkDoc "/index.html" 7 "<br>") w = ([], w) /\
  fst (scanDocument sample_eachNode (mkDoc "/index.html" 5 "<br>") w)
  = scanText "<br>" (sample_eachNode "<br>").
Proof.
  intros w. split.
  - refine (proj1 (C3_scanDocument_cache sample_eachNode
      (mkDoc "/index.html" 7 "<br>") w)
      {| timestamp := 7; snapshot_tags := [] |} _ _); reflexivity.
  - refine (proj1 (proj2 (C3_scanDocument_cache sample_eachNode
      (mkDoc "/index.html" 5 "<br>") w) _)).
    right. exists {| timestamp := 7; snapshot_tags := [] |}.
    split; [reflexivity|]. simpl. lia.
Defined.

(** C10 (counterexample). After "/a.html" has been scanned with one tag at
    timestamp 1, a document at the same path and timestamp whose text has no
    element at all is answered from the cache: the list returned is not
    empty. *)
Lemma C10_cached_list_not_empty :
  let doc1 := mkDoc "/a.html" 1 "<br>" in
  let doc2 := mkDoc "/a.html" 1 "plain text" in
  let w1 := snd (scanDocument sample_eachNode doc1 world_init) in
  Forall (fun p => element_event p = false) (sample_eachNode (getText doc2)) /\
  fst (scanDocument sample_eachNode doc2 w1) <> [].
Proof.
  vm_compute. split; [|discriminate].
  repeat constructor.
Qed.

Section EmptyScan.

Variable eachNode : string -> list Payload.

(** C10 (amended). For a document whose node stream holds no named
    element, a call of [scanDocument] that finds no snapshot with the
    document's timestamp under its path returns the empty list, and stores
    the snapshot (timestamp, empty list) under the path; a later call for
    that path with the same timestamp returns the empty list again and
    leaves the state as it is, the tokenizer not being called. *)
Theorem C10_no_element_empty_list (doc : Document) (w : World) :
  Forall (fun p => element_event p = false) (eachNode (getText doc)) ->
  (forall cachedValue,
     _cachedValues w !! fullPath doc = Some cachedValue ->
     timestamp cachedValue <> diskTimestamp doc) ->
  let w' := snd (scanDocument eachNode doc w) in
  fst (scanDocument eachNode doc w) = [] /\
  _cachedValues w' !! fullPath doc =
    Some {| timestamp := diskTimestamp doc; snapshot_tags := [] |} /\
  eachNode_calls w' = S (eachNode_calls w) /\
  console w' = console w /\
  (forall doc',
     fullPath doc' = fullPath doc ->
     diskTimestamp doc' = diskTimestamp doc ->
     scanDocument eachNode doc' w' = ([], w')).
Proof.
  intros Hnodes Hmiss w'.
  destruct (scanText_no_element (getText doc) _ Hnodes) as [Htags Herrors].
  assert (scanDocument eachNode doc w = rescan eachNode doc w) as Hscan.
  { unfold scanDocument.
    destruct (_cachedValues w !! fullPath doc) as [cachedValue|] eqn:Hlookup;
      [|done].
    by rewrite decide_False by by apply Hmiss. }
  assert (_cachedValues w' !! fullPath doc =
    Some {| timestamp := diskTimestamp doc; snapshot_tags := [] |}) as Hstored.
  { unfold w'. rewrite Hscan. unfold rescan. simpl.
    by rewrite lookup_insert_eq, Htags. }
  split; [by rewrite Hscan; unfold rescan; simpl|].
  split; [done|].
  split; [by unfold w'; rewrite Hscan|].
  split.
  - unfold w'. rewrite Hscan. unfold rescan. simpl.
    rewrite Herrors. apply app_nil_r.
  - intros doc' Hpath Htime. unfold scanDocument.
    rewrite Hpath, Hstored. simpl. by rewrite decide_True.
Qed.

End EmptyScan.

Lemma C10_no_element_empty_list_witness :
  fst (scanDocument sample_eachNode (mkDoc "/a.html" 1 "plain text") world_init)
  = [].
Proof.
  refine (proj1 (C10_no_element_empty_list sample_eachNode
    (mkDoc "/a.html" 1 "plain text") world_init _ _)).
  - vm_compute. repeat constructor.
  - intros cachedValue H. vm_compute in H. discriminate H.
Defined.

(** ** What needs a scan beforehand *)

(** C9 (counterexample). [generateInstrumentedHTML] needs no scan
    beforehand: called first, with an empty cache, it returns the
    instrumented text, the same as after a scan, and it fills the cache. *)
Lemma C9_generate_without_prior_scan :
  let doc := mkDoc "/a.html" 1 "<br>" in
  _cachedValues world_init !! fullPath doc = None /\
  fst (generateInstrumentedHTML sample_eachNode doc world_init)
  = "<br data-brackets-id='1'>" /\
  fst (generateInstrumentedHTML sample_eachNode doc world_init)
  = fst (generateInstrumentedHTML sample_eachNode doc
           (snd (scanDocument sample_eachNode doc world_init))) /\
  _cachedValues (snd (generateInstrumentedHTML sample_eachNode doc world_init))
    !! fullPath doc <> None.
Proof. vm_compute. repeat split; discriminate. Qed.

Section Resolver.

Variable eachNode : string -> list Payload.
Variables (Tracker Range Pos : Type).
Variable range_data : Range -> Z.
Variable markText : Editor -> list TagSpan -> string -> Tracker -> Tracker.
Variable getRangesAtDocumentPos :
  Editor -> Pos -> string -> Tracker -> list Range.

(** C9 (amended). [_markText] needs the cache to hold a snapshot for the
    editor's document, stored by an earlier [scanDocument] or
    [generateInstrumentedHTML]: without one it reports an error and hands
    nothing to the tracker, with one it hands the cached list to the
    tracker under the category "htmlTagID". [generateInstrumentedHTML]
    needs no earlier scan: it calls [scanDocument] itself, so that with no
    snapshot for the document it scans, stores the snapshot and returns
    the instrumented text. [_getTagIDAtDocumentPos] answers from the
    tracker alone: the identity of its first range, or -1 when it has
    none. *)
Theorem C9_prior_scan_requirements :
  (forall editor w tr,
     _cachedValues w !! fullPath (document editor) = None ->
     _markText markText editor w tr =
       ({| _cachedValues := _cachedValues w;
           eachNode_calls := eachNode_calls w;
           console := console w ++
             [ "Couldn't find the tag information for "
               +:+ fullPath (document editor) ] |}, tr)) /\
  (forall editor w tr cache,
     _cachedValues w !! fullPath (document editor) = Some cache ->
     _markText markText editor w tr =
       (w, markText editor (snapshot_tags cache) "htmlTagID" tr)) /\
  (forall doc w,
     generateInstrumentedHTML eachNode doc w =
       (instrument (getText doc) (fst (scanDocument eachNode doc w)),
        snd (scanDocument eachNode doc w))) /\
  (forall doc w,
     _cachedValues w !! fullPath doc = None ->
     let tgs := scanText (getText doc) (eachNode (getText doc)) in
     let w' := snd (generateInstrumentedHTML eachNode doc w) in
     fst (generateInstrumentedHTML eachNode doc w)
     = instrument (getText doc) tgs /\
     _cachedValues w' !! fullPath doc =
       Some {| timestamp := diskTimestamp doc; snapshot_tags := tgs |}) /\
  (forall editor pos tr,
     getRangesAtDocumentPos editor pos "htmlTagID" tr = [] ->
     _getTagIDAtDocumentPos range_data getRangesAtDocumentPos editor pos tr
     = -1) /\
  (forall editor pos tr r rest,
     getRangesAtDocumentPos editor pos "htmlTagID" tr = r :: rest ->
     _getTagIDAtDocumentPos range_data getRangesAtDocumentPos editor pos tr
     = range_data r).
Proof.
  split; [|split; [|split; [|split; [|split]]]].
  - intros editor w tr Hnone. unfold _markText. by rewrite Hnone.
  - intros editor w tr cache Hsome. unfold _markText. by rewrite Hsome.
  - intros doc w. unfold generateInstrumentedHTML.
    by destruct (scanDocument eachNode doc w).
  - intros doc w Hnone tgs w'. subst w'.
    unfold generateInstrumentedHTML, scanDocument. rewrite Hnone. simpl.
    split; [done|]. by rewrite lookup_insert_eq.
  - intros editor pos tr Hnil. unfold _getTagIDAtDocumentPos. by rewrite Hnil.
  - intros editor pos tr r rest Hcons. unfold _getTagIDAtDocumentPos.
    by rewrite Hcons.
Qed.

End Resolver.

Lemma C9_prior_scan_requirements_witness :
  let editor := mkEditor (mkDoc "/a.html" 1 "<br>") in
  let markText := fun (_ : Editor) (tgs : list TagSpan) (_ : string)
                      (_ : list TagSpan) => tgs in
  let rangesAt := fun (_ : Editor) (pos : Z) (_ : string)
                      (tr : list TagSpan) =>
                    filter (fun t => start t <= pos < end_ t) tr in
  snd (_markText markText editor world_init []) = [] /\
  _getTagIDAtDocumentPos data rangesAt editor 2 [] = -1.
Proof.
  intros editor markText rangesAt.
  pose proof (C9_prior_scan_requirements sample_eachNode (list TagSpan)
    TagSpan Z data markText rangesAt) as (Hnone & _ & _ & _ & Hnil & _).
  split.
  - rewrite (Hnone editor world_init []); reflexivity.
  - apply Hnil. reflexivity.
Defined.

(** ** The sort of the tag list *)

Lemma compare_start_le a b :
  (compare_start a b <=? 0) = true <-> le_start a b.
Proof.
  unfold compare_start, le_start.
  destruct (start a <? start b) eqn:Hlt; [rewrite Z.ltb_lt in Hlt|rewrite Z.ltb_ge in Hlt].
  - split; [lia|done].
  - destruct (start a =? start b) eqn:Heq;
      [rewrite Z.eqb_eq in Heq|rewrite Z.eqb_neq in Heq].
    + split; [lia|done].
    + split; [done|lia].
Qed.

Lemma sort_insert_perm x l : sort_insert compare_start x l ≡ₚ x :: l.
Proof.
  induction l as [|y l IH]; simpl; [done|].
  destruct (compare_start x y <=? 0); [done|].
  rewrite IH. apply Permutation_swap.
Qed.

Lemma array_sort_perm l : array_sort compare_start l ≡ₚ l.
Proof.
  induction l as [|x l IH]; simpl; [done|].
  by rewrite sort_insert_perm, IH.
Qed.

Lemma sort_insert_sorted x l :
  StronglySorted le_start l ->
  StronglySorted le_start (sort_insert compare_start x l).
Proof.
  induction 1 as [|y l Hsorted IH Hy]; simpl.
  - repeat constructor.
  - destruct (compare_start x y <=? 0) eqn:Hcmp.
    + apply compare_start_le in Hcmp.
      constructor; [by constructor|]. constructor; [done|].
      eapply Forall_impl; [exact Hy|]. unfold le_start in *. intros; lia.
    + constructor; [done|]. rewrite sort_insert_perm. constructor; [|done].
      assert (~ le_start x y) as Hnle by (rewrite <- compare_start_le; congruence).
      unfold le_start in *. lia.
Qed.

Lemma array_sort_sorted l : StronglySorted le_start (array_sort compare_start l).
Proof.
  induction l as [|x l IH]; simpl; [constructor|]. by apply sort_insert_sorted.
Qed.

(** Stability: among the spans of one start offset the order is kept. *)
Lemma sort_insert_stable s x l :
  filter (fun t => start t = s) (sort_insert compare_start x l)
  = filter (fun t => start t = s) (x :: l).
Proof.
  induction l as [|y l IH]; simpl; [done|].
  destruct (compare_start x y <=? 0) eqn:Hcmp; [done|].
  assert (~ le_start x y) as Hnle by (rewrite <- compare_start_le; congruence).
  unfold le_start in Hnle.
  rewrite filter_cons, IH, !filter_cons.
  repeat case_decide; try done. exfalso. lia.
Qed.

Lemma array_sort_stable s l :
  filter (fun t => start t = s) (array_sort compare_start l)
  = filter (fun t => start t = s) l.
Proof.
  induction l as [|x l IH]; simpl; [done|].
  by rewrite sort_insert_stable, !filter_cons, IH.
Qed.

(** ** Identities *)

Lemma ids_inv_push tgs id t :
  ids_inv tgs id -> data t = id -> ids_inv (tgs ++ [t]) (id + 1).
Proof.
  intros [Hid Hdata] Ht. split; [lia|].
  rewrite map_app, Hdata. simpl. rewrite Ht.
  replace (id + 1 - 1) with ((id - 1) + 1) by lia.
  rewrite seqZ_app by lia. f_equal.
  rewrite seqZ_cons by lia. rewrite seqZ_nil by lia. f_equal. lia.
Qed.

Lemma ids_inv_callback textLength st payload :
  ids_inv (tags st) (tagID st) ->
  ids_inv (tags (eachNode_callback textLength st payload))
          (tagID (eachNode_callback textLength st payload)).
Proof.
  intros H. unfold eachNode_callback.
  destruct (closing payload && _isEmptyTag payload); [done|].
  destruct (_ && _); [|done].
  destruct (_isEmptyTag payload); simpl; [by apply ids_inv_push|].
  destruct (closing payload); [|done].
  destruct (findStartTag _ _) as [[startTag stack']|]; simpl; [|done].
  by apply ids_inv_push.
Qed.

Lemma ids_inv_scanNodes textLength nodes :
  ids_inv (tags (scanNodes textLength nodes)) (tagID (scanNodes textLength nodes)).
Proof.
  unfold scanNodes.
  assert (ids_inv (tags scan_init) (tagID scan_init)) as Hinit by done.
  revert Hinit. generalize scan_init.
  induction nodes as [|p nodes IH]; intros st Hst; simpl; [done|].
  apply IH. by apply ids_inv_callback.
Qed.

Lemma ids_inv_drain stack tgs id :
  ids_inv tgs id ->
  ids_inv (fst (drain stack tgs id)) (snd (drain stack tgs id)).
Proof.
  revert tgs id. induction stack as [|tag stack IH]; intros tgs id H; simpl; [done|].
  apply IH. by apply ids_inv_push.
Qed.

(** The identities of the emitted spans are 1, 2, ..., in emission order. *)
Lemma emittedTags_ids text nodes :
  map data (emittedTags text nodes)
  = seqZ 1 (Z.of_nat (length (emittedTags text nodes))).
Proof.
  unfold emittedTags.
  set (st := scanNodes _ nodes).
  destruct (ids_inv_drain (tagStack st) (tags st) (tagID st)) as [Hid Hdata].
  { apply ids_inv_scanNodes. }
  rewrite Hdata. f_equal.
  apply (f_equal length) in Hdata. rewrite length_map, length_seqZ in Hdata. lia.
Qed.

(** ** Every span is non-empty *)

Lemma open_ok_mono pos pos' e : pos <= pos' -> open_ok pos e -> open_ok pos' e.
Proof. unfold open_ok. intros Hle (Hlen & Hend & Hu). repeat split; [done|lia|done]. Qed.

Lemma length_falsy_false u :
  length_falsy u = false -> exists n, u = Some n /\ n <> 0.
Proof.
  destruct u as [n|]; simpl; [|done].
  intros H%Z.eqb_neq. by exists n.
Qed.

(** The patch of the top entry keeps the stack well-formed, the payload
    that triggers it starting at or after [pos]. *)
Lemma set_unclosedLength_ok textLength pos payload stack :
  pos <= textLength ->
  pos <= sourceOffset payload ->
  Forall (open_ok pos) stack ->
  Forall (open_ok pos) (set_unclosedLength textLength payload stack).
Proof.
  intros Hpos Hoff Hstack.
  destruct Hstack as [|tag rest (Hlen & Hend & Hu) Hrest]; simpl; [constructor|].
  destruct (length_falsy (unclosedLength tag)); [|by constructor].
  destruct (decide _); constructor; try done;
    unfold open_ok; simpl; repeat split; try done; lia.
Qed.

Lemma findStartTag_Forall (P : OpenTag -> Prop) n stack startTag stack' :
  findStartTag n stack = Some (startTag, stack') ->
  Forall P stack ->
  P startTag /\ Forall P stack'.
Proof.
  revert stack'. induction stack as [|tag rest IH]; intros stack'; simpl; [done|].
  intros Hfind Hall. apply Forall_cons in Hall as [Htag Hrest].
  destruct (decide _).
  - by inversion Hfind; subst.
  - destruct (findStartTag n rest) as [[s r]|]; [|done].
    inversion Hfind; subst.
    destruct (IH r eq_refl Hrest) as [Hs Hr]. split; [done|by constructor].
Qed.

Lemma scan_inv_callback textLength pos st payload :
  scan_inv textLength pos st ->
  pos <= sourceOffset payload ->
  0 < sourceLength payload ->
  sourceOffset payload + sourceLength payload <= textLength ->
  scan_inv textLength (sourceOffset payload + sourceLength payload)
    (eachNode_callback textLength st payload).
Proof.
  intros (Hpos & Htags & Hstack) Hoff Hlen Hend.
  set (pos' := sourceOffset payload + sourceLength payload).
  assert (pos <= pos') as Hle by (unfold pos'; lia).
  assert (Forall (open_ok pos') (tagStack st)) as Hstack'.
  { eapply Forall_impl; [exact Hstack|]. intros e. by apply open_ok_mono. }
  assert (Forall (open_ok pos)
            (set_unclosedLength textLength payload (tagStack st))) as Hpatched
    by by apply set_unclosedLength_ok.
  assert (Forall (open_ok pos')
            (set_unclosedLength textLength payload (tagStack st))) as Hpatched'.
  { eapply Forall_impl; [exact Hpatched|]. intros e. by apply open_ok_mono. }
  unfold eachNode_callback.
  destruct (closing payload && _isEmptyTag payload); [done|].
  destruct (_ && _); [|done].
  destruct (_isEmptyTag payload).
  { repeat split; simpl; try done.
    apply Forall_app. split; [done|]. repeat constructor. simpl. lia. }
  destruct (closing payload).
  - destruct (findStartTag _ _) as [[startTag stack']|] eqn:Hfind.
    + destruct (findStartTag_Forall _ _ _ _ _ Hfind Hpatched)
        as [(Hslen & Hsend & _) _].
      destruct (findStartTag_Forall _ _ _ _ _ Hfind Hpatched') as [_ Hrest].
      repeat split; simpl; try done.
      apply Forall_app. split; [done|]. repeat constructor. simpl. lia.
    + repeat split; simpl; done.
  - repeat split; simpl; try done.
    constructor; [|done]. unfold open_ok. simpl. repeat split; [done|].
    unfold pos'. lia.
Qed.

Lemma scan_inv_fold textLength nodes pos st :
  scan_inv textLength pos st ->
  document_order textLength pos nodes ->
  exists pos',
    scan_inv textLength pos' (fold_left (eachNode_callback textLength) nodes st).
Proof.
  revert pos st. induction nodes as [|p nodes IH]; intros pos st Hinv Horder; simpl.
  - by exists pos.
  - destruct Horder as (Hoff & Hlen & Hend & Hrest).
    eapply IH; [|exact Hrest]. by eapply scan_inv_callback.
Qed.

Lemma unclosed_or_source_pos pos e : open_ok pos e -> 0 < unclosed_or_source e.
Proof.
  unfold open_ok, unclosed_or_source. intros (Hlen & _ & Hu).
  destruct (unclosedLength e) as [u|]; [|done].
  destruct (u =? 0) eqn:Hz; [done|done].
Qed.

Lemma drain_nonempty pos stack tgs id :
  Forall (open_ok pos) stack ->
  Forall (fun t => start t < end_ t) tgs ->
  Forall (fun t => start t < end_ t) (fst (drain stack tgs id)).
Proof.
  intros Hstack. revert tgs id.
  induction Hstack as [|tag stack Htag _ IH]; intros tgs id Htgs; simpl; [done|].
  apply IH. apply Forall_app. split; [done|]. repeat constructor. simpl.
  pose proof (unclosed_or_source_pos _ _ Htag). lia.
Qed.

Lemma emittedTags_nonempty text nodes :
  document_order (Z.of_nat (String.length text)) 0 nodes ->
  Forall (fun t => start t < end_ t) (emittedTags text nodes).
Proof.
  intros Horder. unfold emittedTags, scanNodes.
  destruct (scan_inv_fold (Z.of_nat (String.length text)) nodes 0 scan_init)
    as (pos & _ & Htags & Hstack); [|done|by eapply drain_nonempty].
  repeat split; simpl; [lia|constructor|constructor].
Qed.

(** ** The openings of the tags do not overlap *)

Lemma disjoint_sym a b : disjoint a b -> disjoint b a.
Proof. unfold disjoint. tauto. Qed.

Lemma ForallOrdPairs_perm {A} (R : A -> A -> Prop) l l' :
  (forall a b, R a b -> R b a) ->
  l ≡ₚ l' -> ForallOrdPairs R l -> ForallOrdPairs R l'.
Proof.
  intros Hsym Hperm. induction Hperm as [|x l l' Hperm IH|x y l|l l' l'' _ IH1 _ IH2].
  - done.
  - intros H. inversion H as [|? ? Hx Hl]; subst.
    constructor; [by rewrite <- Hperm|by apply IH].
  - intros H. inversion H as [|? ? Hy Hrest]; subst.
    inversion Hrest as [|? ? Hx Hl]; subst.
    apply Forall_cons in Hy as [Hyx Hy].
    constructor; [constructor; [by apply Hsym|done]|by constructor].
  - intros H. by apply IH2, IH1.
Qed.

Lemma intervals_ok_perm pos l l' :
  l ≡ₚ l' -> intervals_ok pos l -> intervals_ok pos l'.
Proof.
  intros Hperm [Hall Hpairs]. split; [by rewrite <- Hperm|].
  by apply (ForallOrdPairs_perm disjoint l l' disjoint_sym).
Qed.

Lemma intervals_ok_mono pos pos' l :
  pos <= pos' -> intervals_ok pos l -> intervals_ok pos' l.
Proof.
  intros Hle [Hall Hpairs]. split; [|done].
  eapply Forall_impl; [exact Hall|]. simpl. intros iv. lia.
Qed.

Lemma intervals_ok_cons pos pos' a b l :
  0 <= pos -> pos <= a -> a < b -> b <= pos' ->
  intervals_ok pos l -> intervals_ok pos' ((a, b) :: l).
Proof.
  intros Hpos Ha Hab Hb [Hall Hpairs]. split.
  - constructor; [simpl; lia|].
    eapply Forall_impl; [exact Hall|]. simpl. intros iv. lia.
  - constructor; [|done].
    eapply Forall_impl; [exact Hall|]. unfold disjoint. simpl. intros iv. lia.
Qed.

Lemma findStartTag_perm n stack startTag stack' :
  findStartTag n stack = Some (startTag, stack') -> stack ≡ₚ startTag :: stack'.
Proof.
  revert stack'. induction stack as [|tag rest IH]; intros stack'; simpl; [done|].
  destruct (decide _); [by intros [= -> ->]|].
  destruct (findStartTag n rest) as [[s r]|]; [|done].
  intros [= -> <-]. rewrite (IH r eq_refl). apply Permutation_swap.
Qed.

Section Intervals.

Variable width : string -> Z.

Lemma set_unclosedLength_intervals textLength payload stack :
  map (open_interval width) (set_unclosedLength textLength payload stack)
  = map (open_interval width) stack.
Proof.
  destruct stack as [|tag rest]; simpl; [done|].
  destruct (length_falsy _); [|done].
  by destruct (decide _).
Qed.

Lemma drain_intervals stack tgs id :
  map (span_interval width) (fst (drain stack tgs id))
  ≡ₚ map (span_interval width) tgs ++ map (open_interval width) stack.
Proof.
  revert tgs id. induction stack as [|tag stack IH]; intros tgs id; simpl.
  - by rewrite app_nil_r.
  - rewrite IH, map_app. simpl. rewrite <- app_assoc. done.
Qed.

(** A node that comes after [pos] adds at most one interval, its own; a
    closing tag moves one from the stack to the spans. *)
Lemma intervals_callback textLength pos st payload :
  0 <= pos ->
  intervals_ok pos (scan_intervals width st) ->
  pos <= sourceOffset payload ->
  0 < sourceLength payload ->
  width_fits width payload ->
  intervals_ok (sourceOffset payload + sourceLength payload)
    (scan_intervals width (eachNode_callback textLength st payload)).
Proof.
  intros Hpos Hok Hoff Hlen Hfits.
  set (pos' := sourceOffset payload + sourceLength payload).
  assert (pos <= pos') as Hle by (unfold pos'; lia).
  assert (intervals_ok pos' (scan_intervals width st)) as Hok'
    by by eapply intervals_ok_mono.
  unfold width_fits, element_event in Hfits.
  unfold eachNode_callback.
  destruct (closing payload && _isEmptyTag payload); [done|].
  destruct (_ && _); [|done]. specialize (Hfits eq_refl).
  assert (intervals_ok pos'
    ((sourceOffset payload,
      sourceOffset payload + width (name_string (nodeName payload)))
     :: scan_intervals width st)) as Hnew.
  { eapply intervals_ok_cons; [exact Hpos|done|lia|unfold pos'; lia|done]. }
  destruct (_isEmptyTag payload).
  { eapply intervals_ok_perm; [|exact Hnew].
    unfold scan_intervals. simpl.
    rewrite set_unclosedLength_intervals, map_app. simpl.
    rewrite <- app_assoc. simpl. by rewrite <- Permutation_middle. }
  destruct (closing payload).
  - destruct (findStartTag _ _) as [[startTag stack']|] eqn:Hfind.
    + eapply intervals_ok_perm; [|exact Hok'].
      unfold scan_intervals. simpl.
      rewrite <- (set_unclosedLength_intervals textLength payload (tagStack st)).
      rewrite (findStartTag_perm _ _ _ _ Hfind), map_app. simpl.
      rewrite <- app_assoc. simpl. done.
    + unfold scan_intervals. simpl. by rewrite set_unclosedLength_intervals.
  - eapply intervals_ok_perm; [|exact Hnew].
    unfold scan_intervals. simpl.
    rewrite set_unclosedLength_intervals. by rewrite <- Permutation_middle.
Qed.

Lemma intervals_fold textLength nodes pos st :
  0 <= pos ->
  intervals_ok pos (scan_intervals width st) ->
  document_order textLength pos nodes ->
  Forall (width_fits width) nodes ->
  exists pos',
    intervals_ok pos'
      (scan_intervals width (fold_left (eachNode_callback textLength) nodes st)).
Proof.
  intros Hpos Hok Horder Hfits. revert pos st Hpos Hok Horder.
  induction Hfits as [|p nodes Hp _ IH]; intros pos st Hpos Hok Horder; simpl.
  - by exists pos.
  - destruct Horder as (Hoff & Hlen & Hend & Hrest).
    eapply IH; [|by eapply intervals_callback|exact Hrest]. lia.
Qed.

Lemma emittedTags_intervals text nodes :
  document_order (Z.of_nat (String.length text)) 0 nodes ->
  Forall (width_fits width) nodes ->
  exists pos,
    intervals_ok pos (map (span_interval width) (emittedTags text nodes)).
Proof.
  intros Horder Hfits.
  destruct (intervals_fold (Z.of_nat (String.length text)) nodes 0 scan_init)
    as (pos & Hok); [done|by repeat constructor|done|done|].
  exists pos. eapply intervals_ok_perm; [|exact Hok].
  unfold emittedTags. by rewrite drain_intervals.
Qed.

Lemma sorted_disjoint pos l :
  StronglySorted le_start l ->
  intervals_ok pos (map (span_interval width) l) ->
  StronglySorted (fun a b => start a + width (name a) <= start b) l.
Proof.
  intros Hsorted [Hall Hpairs].
  induction Hsorted as [|a l Hsorted IH Ha]; [constructor|].
  inversion Hpairs as [|? ? Hdisj Hrest]; subst.
  apply Forall_cons in Hall as [_ Hall].
  constructor; [by apply IH|].
  apply Forall_forall. intros b Hb.
  rewrite Forall_forall in Ha. specialize (Ha b Hb).
  rewrite Forall_forall in Hdisj, Hall.
  pose proof (Hall _ (list_elem_of_fmap_2 (span_interval width) _ _ Hb)) as Hb'.
  destruct (Hdisj _ (list_elem_of_fmap_2 (span_interval width) _ _ Hb))
    as [Hd|Hd]; [done|].
  unfold span_interval, le_start in *. simpl in *. lia.
Qed.

(** In the list a scan returns, the opening of a span ends before the next
    span starts. *)
Lemma scanText_separated text nodes :
  document_order (Z.of_nat (String.length text)) 0 nodes ->
  Forall (width_fits width) nodes ->
  Forall (fun t => 0 <= start t) (scanText text nodes) /\
  StronglySorted (fun a b => start a + width (name a) <= start b)
    (scanText text nodes).
Proof.
  intros Horder Hfits.
  destruct (emittedTags_intervals text nodes Horder Hfits) as (pos & Hok).
  assert (intervals_ok pos (map (span_interval width) (scanText text nodes)))
    as Hok'.
  { eapply intervals_ok_perm; [|exact Hok].
    unfold scanText. by rewrite array_sort_perm. }
  split.
  - destruct Hok' as [Hall _]. apply Forall_forall. intros t Ht.
    rewrite Forall_forall in Hall.
    specialize (Hall _ (list_elem_of_fmap_2 (span_interval width) _ _ Ht)).
    simpl in Hall. lia.
  - eapply sorted_disjoint; [apply array_sort_sorted|exact Hok'].
Qed.

End Intervals.

Lemma StronglySorted_impl {A} (R R' : A -> A -> Prop) l :
  (forall a b, R a b -> R' a b) -> StronglySorted R l -> StronglySorted R' l.
Proof.
  intros Himpl. induction 1 as [|a l _ IH Ha]; constructor; [done|].
  eapply Forall_impl; [exact Ha|]. apply Himpl.
Qed.

Lemma document_order_unit textLength pos nodes :
  document_order textLength pos nodes ->
  Forall (width_fits (fun _ => 1)) nodes.
Proof.
  revert pos. induction nodes as [|p nodes IH]; intros pos Horder; [constructor|].
  destruct Horder as (_ & Hlen & _ & Hrest).
  constructor; [|by eapply IH]. unfold width_fits. intros _. lia.
Qed.

(** No two spans of a scan start at the same offset. *)
Lemma scanText_starts_increase text nodes :
  document_order (Z.of_nat (String.length text)) 0 nodes ->
  StronglySorted lt_start (scanText text nodes).
Proof.
  intros Horder.
  destruct (scanText_separated (fun _ => 1) text nodes Horder) as [_ Hsorted].
  - by eapply document_order_unit.
  - eapply StronglySorted_impl; [|exact Hsorted].
    unfold lt_start. simpl. intros a b. lia.
Qed.

(** A list without two equal starts has one sorted arrangement only. *)
Lemma sorted_perm_unique l1 l2 :
  l1 ≡ₚ l2 ->
  StronglySorted lt_start l1 -> StronglySorted le_start l2 -> l1 = l2.
Proof.
  revert l2. induction l1 as [|a l1 IH]; intros l2 Hperm H1 H2.
  - by apply Permutation_nil in Hperm.
  - destruct l2 as [|b l2]; [by apply Permutation_sym, Permutation_nil in Hperm|].
    apply StronglySorted_inv in H1 as [H1 Ha].
    apply StronglySorted_inv in H2 as [H2 Hb].
    assert (a = b) as ->.
    { assert (a ∈ b :: l2) as Hin1 by (rewrite <- Hperm; by left).
      assert (b ∈ a :: l1) as Hin2 by (rewrite Hperm; by left).
      apply elem_of_cons in Hin1 as [Heq|Hin1]; [done|].
      apply elem_of_cons in Hin2 as [Heq|Hin2]; [done|].
      rewrite Forall_forall in Ha, Hb.
      specialize (Ha b Hin2). specialize (Hb a Hin1).
      unfold lt_start, le_start in *. lia. }
    f_equal. apply IH; [by eapply Permutation_cons_inv|done|done].
Qed.

Lemma scanText_ids text nodes :
  map data (scanText text nodes)
  ≡ₚ seqZ 1 (Z.of_nat (length (scanText text nodes))).
Proof.
  assert (scanText text nodes ≡ₚ emittedTags text nodes) as Hperm
    by apply array_sort_perm.
  rewrite Hperm at 1. rewrite emittedTags_ids.
  by rewrite (Permutation_length Hperm).
Qed.

Lemma scanText_data_positive text nodes :
  Forall (fun t => 0 < data t) (scanText text nodes).
Proof.
  apply Forall_forall. intros t Ht.
  assert (data t ∈ seqZ 1 (Z.of_nat (length (scanText text nodes)))) as Hin.
  { rewrite <- scanText_ids. apply list_elem_of_fmap. by exists t. }
  apply elem_of_seqZ in Hin. lia.
Qed.

(** C6. When the node stream is in document order with positive source
    lengths, every span of the returned list has start < end; the list is
    sorted in ascending order of start, and spans of equal start keep the
    order in which they were emitted (there are none: the list is the only
    ascending arrangement of the emitted spans, whatever way the engine
    sorts); the identities in the list are pairwise distinct and positive:
    they are the numbers 1..n handed out in emission order, which need not
    be the order of the starts (for "<div><p>text" the list carries the
    identities 2, 1). *)
Theorem C6_scan_invariants :
  (forall text nodes,
     document_order (Z.of_nat (String.length text)) 0 nodes ->
     let spans := scanText text nodes in
     Forall (fun t => start t < end_ t) spans /\
     StronglySorted le_start spans /\
     (forall s, filter (fun t => start t = s) spans
                = filter (fun t => start t = s) (emittedTags text nodes)) /\
     (forall l, l ≡ₚ emittedTags text nodes -> StronglySorted le_start l ->
                l = spans) /\
     NoDup (map data spans) /\
     Forall (fun t => 0 < data t) spans /\
     map data spans ≡ₚ seqZ 1 (Z.of_nat (length spans))) /\
  map data (scanText "<div><p>text" [openTag "DIV" 0 5; openTag "P" 5 3])
  = [2; 1].
Proof.
  split; [|by vm_compute].
  intros text nodes Horder spans.
  assert (spans ≡ₚ emittedTags text nodes) as Hperm by apply array_sort_perm.
  split; [|split; [|split; [|split; [|split; [|split]]]]].
  - rewrite Hperm. by apply emittedTags_nonempty.
  - apply array_sort_sorted.
  - intros s. apply array_sort_stable.
  - intros l Hl Hsorted. symmetry. apply sorted_perm_unique; [|
      by apply scanText_starts_increase|done].
    by rewrite Hperm, Hl.
  - unfold spans. rewrite scanText_ids. apply NoDup_seqZ.
  - apply scanText_data_positive.
  - apply scanText_ids.
Qed.

Lemma C6_scan_invariants_witness :
  let text := "<div><span>x</span></div>" in
  let nodes := [openTag "DIV" 0 5; openTag "SPAN" 5 6; textNode 11 1;
                closeTag "SPAN" 12 7; closeTag "DIV" 19 6] in
  Forall (fun t => start t < end_ t) (scanText text nodes).
Proof.
  intros text nodes.
  refine (proj1 (proj1 C6_scan_invariants text nodes _)).
  vm_compute. repeat split; discriminate.
Defined.

(** ** Strings as lists of code units *)

Lemma chars_app s1 s2 : chars (s1 +:+ s2) = chars s1 ++ chars s2.
Proof. unfold chars. induction s1 as [|c s1 IH]; simpl; [done|]. by rewrite IH. Qed.

Lemma chars_length s : length (chars s) = String.length s.
Proof. unfold chars. induction s as [|c s IH]; simpl; [done|]. by rewrite IH. Qed.

Lemma chars_inj s1 s2 : chars s1 = chars s2 -> s1 = s2.
Proof.
  intros H. rewrite <- (string_of_list_ascii_of_string s1).
  rewrite <- (string_of_list_ascii_of_string s2). unfold chars in H. by rewrite H.
Qed.

Lemma chars_substring n m s :
  chars (String.substring n m s) = take m (drop n (chars s)).
Proof.
  unfold chars. revert n m.
  induction s as [|c s IH]; intros [|n] [|m]; simpl; try done.
  by rewrite IH.
Qed.

Lemma chars_insertAt i a s :
  chars (insertAt i a s) = take i (chars s) ++ chars a ++ drop i (chars s).
Proof.
  revert i. induction s as [|c s IH]; intros [|i].
  - simpl insertAt. rewrite chars_app. by rewrite take_0, drop_0.
  - simpl. by rewrite app_nil_r.
  - simpl insertAt. rewrite chars_app. by rewrite take_0, drop_0.
  - unfold chars in *. simpl. by rewrite IH.
Qed.

(** [gen.substr(0, i) + a + gen.substr(i)] inserts [a] at index [i], as long
    as [i] is not negative. *)
Lemma substr_insertAt gen a i :
  0 <= i ->
  substr gen 0 (Some i) +:+ a +:+ substr gen i None = insertAt (Z.to_nat i) a gen.
Proof.
  intros Hi. apply chars_inj.
  rewrite !chars_app, chars_insertAt. unfold substr.
  rewrite !chars_substring.
  assert (length (chars gen) = String.length gen) as Hlen by apply chars_length.
  change (0 <? 0) with false. cbv iota.
  destruct (i <? 0) eqn:Hneg; [apply Z.ltb_lt in Hneg; lia|].
  rewrite (Z.min_l 0) by lia. rewrite (Z.max_l i 0) by lia.
  rewrite Z.sub_0_r. change (Z.to_nat 0) with 0%nat. rewrite drop_0.
  destruct (decide (i <= Z.of_nat (String.length gen))).
  - rewrite !(Z.min_l i) by lia. f_equal. f_equal.
    apply take_ge. rewrite length_drop. lia.
  - rewrite !(Z.min_r i) by lia.
    rewrite Z.sub_diag. change (Z.to_nat 0) with 0%nat. rewrite take_0.
    rewrite (take_ge (chars gen) (Z.to_nat i)) by lia.
    rewrite (drop_ge (chars gen) (Z.to_nat i)) by lia.
    f_equal. apply take_ge. lia.
Qed.

(** ** The generator *)

Lemma inserted_length_snoc prior t :
  inserted_length (prior ++ [t])
  = inserted_length prior + Z.of_nat (String.length (attrText t)).
Proof.
  induction prior as [|d prior IH].
  - unfold inserted_length. cbn [foldr app]. lia.
  - change (inserted_length ((d :: prior) ++ [t]))
      with (Z.of_nat (String.length (attrText d)) + inserted_length (prior ++ [t])).
    change (inserted_length (d :: prior))
      with (Z.of_nat (String.length (attrText d)) + inserted_length prior).
    rewrite IH. lia.
Qed.

Lemma inserted_length_nonneg prior : 0 <= inserted_length prior.
Proof.
  induction prior as [|d prior IH]; [done|].
  change (inserted_length (d :: prior))
    with (Z.of_nat (String.length (attrText d)) + inserted_length prior).
  lia.
Qed.

Lemma forEach_callback_insertAt gen prior t :
  0 <= start t ->
  forEach_callback (gen, inserted_length prior) t
  = (insertAt (Z.to_nat (start t + Z.of_nat (String.length (name t)) + 1
                         + inserted_length prior))
              (attrText t) gen,
     inserted_length (prior ++ [t])).
Proof.
  intros Ht. unfold forEach_callback.
  rewrite substr_insertAt by (pose proof (inserted_length_nonneg prior); lia).
  by rewrite inserted_length_snoc.
Qed.

(** The loop of [generateInstrumentedHTML] computes what the specification
    describes, [insertCount] being the length inserted so far. *)
Lemma forEach_insert_attributes todo prior gen :
  Forall (fun t => 0 <= start t) todo ->
  fst (fold_left forEach_callback todo (gen, inserted_length prior))
  = insert_attributes prior todo gen.
Proof.
  intros Htodo. revert prior gen.
  induction Htodo as [|t todo Ht _ IH]; intros prior gen;
    cbn [fold_left insert_attributes]; [done|].
  rewrite forEach_callback_insertAt by done. apply IH.
Qed.

Lemma instrument_insert_attributes text tgs :
  Forall (fun t => 0 <= start t) tgs ->
  instrument text tgs = insert_attributes [] tgs text.
Proof. intros H. unfold instrument. by apply (forEach_insert_attributes tgs []). Qed.

(** ** Where the starts of the spans come from *)



(** ** What the cache holds *)

Section CacheInvariant.

Variable eachNode : string -> list Payload.
Variable P : list TagSpan -> Prop.
Hypothesis scan_P : forall text, P (scanText text (eachNode text)).

(** A property of every scan is a property of every cached list. *)
Lemma reachable_cache w :
  reachable eachNode w ->
  forall path cachedValue,
    _cachedValues w !! path = Some cachedValue -> P (snapshot_tags cachedValue).
Proof.
  induction 1 as [|doc w Hw IH|msg w Hw IH]; intros path cachedValue; simpl.
  - by rewrite lookup_empty.
  - unfold scanDocument.
    assert (forall v, _cachedValues (snd (rescan eachNode doc w)) !! path = Some v
                      -> P (snapshot_tags v)) as Hrescan.
    { intros v. unfold rescan. simpl.
      destruct (decide (fullPath doc = path)) as [->|Hne].
      - rewrite lookup_insert_eq. intros [= <-]. apply scan_P.
      - rewrite lookup_insert_ne by done. apply IH. }
    destruct (_cachedValues w !! fullPath doc) as [cv|]; [|apply Hrescan].
    destruct (decide _); [apply IH|apply Hrescan].
  - apply IH.
Qed.

(** It is then a property of every list [scanDocument] returns. *)
Lemma scanDocument_result doc w :
  reachable eachNode w -> P (fst (scanDocument eachNode doc w)).
Proof.
  intros Hw. unfold scanDocument.
  destruct (_cachedValues w !! fullPath doc) as [cv|] eqn:Hlookup;
    [|apply scan_P].
  destruct (decide _); [|apply scan_P].
  by eapply reachable_cache.
Qed.

End CacheInvariant.

(** ** What a scan of a tokenized text is like *)

Lemma scanText_spans_ok text nodes :
  document_order (Z.of_nat (String.length text)) 0 nodes ->
  Forall name_fits nodes ->
  spans_ok (scanText text nodes).
Proof.
  intros Horder Hfits.
  destruct (scanText_separated name_width text nodes Horder Hfits)
    as [Hstart Hsorted].
  pose proof (scanText_data_positive text nodes) as Hdata.
  split.
  - apply Forall_forall. intros t Ht.
    rewrite Forall_forall in Hstart, Hdata. split; [by apply Hstart|by apply Hdata].
  - eapply StronglySorted_impl; [|exact Hsorted].
    unfold name_end, name_width. simpl. intros a b. lia.
Qed.

(** ** The instrumented text is the original text with the attributes in it *)

Lemma chars_str_take n s : chars (str_take n s) = take n (chars s).
Proof. unfold str_take. by rewrite chars_substring, drop_0. Qed.

Lemma chars_str_drop n s : chars (str_drop n s) = drop n (chars s).
Proof.
  unfold str_drop. rewrite chars_substring. apply take_ge.
  rewrite length_drop, chars_length. lia.
Qed.

Lemma str_take_drop n s : str_take n s +:+ str_drop n s = s.
Proof.
  apply chars_inj.
  by rewrite chars_app, chars_str_take, chars_str_drop, take_drop.
Qed.

Lemma str_take_length n s :
  String.length (str_take n s) = (n `min` String.length s)%nat.
Proof. by rewrite <- !chars_length, chars_str_take, length_take. Qed.

Lemma string_app_length s1 s2 :
  String.length (s1 +:+ s2) = (String.length s1 + String.length s2)%nat.
Proof. by rewrite <- !chars_length, chars_app, length_app. Qed.

Lemma string_app_assoc s1 s2 s3 : (s1 +:+ s2) +:+ s3 = s1 +:+ s2 +:+ s3.
Proof. apply chars_inj. by rewrite !chars_app, app_assoc. Qed.

Lemma weave_delete rest cur tgs : delete_injected (weave rest cur tgs) = rest.
Proof.
  revert rest cur. induction tgs as [|t tgs IH]; intros rest cur; simpl.
  - apply chars_inj. by rewrite chars_app, app_nil_r.
  - rewrite IH. apply str_take_drop.
Qed.

Lemma weave_injected rest cur tgs :
  injected_strings (weave rest cur tgs) = map attrText tgs.
Proof.
  revert rest cur. induction tgs as [|t tgs IH]; intros rest cur; simpl; [done|].
  by rewrite IH.
Qed.

(** One turn of the loop, the text being cut where the woven part ends. *)
Lemma forEach_callback_weave pre rest cur ic t :
  Z.of_nat (String.length pre) = cur + ic ->
  cur <= name_end t ->
  forEach_callback (pre +:+ rest, ic) t
  = ((pre +:+ str_take (Z.to_nat (name_end t - cur)) rest +:+ attrText t)
     +:+ str_drop (Z.to_nat (name_end t - cur)) rest,
     ic + Z.of_nat (String.length (attrText t))).
Proof.
  intros Hpre Hcur. unfold forEach_callback. f_equal.
  change (start t + Z.of_nat (String.length (name t)) + 1) with (name_end t).
  rewrite substr_insertAt by lia.
  apply chars_inj. rewrite chars_insertAt, !chars_app.
  rewrite chars_str_take, chars_str_drop.
  replace (Z.to_nat (name_end t + ic))
    with (length (chars pre) + Z.to_nat (name_end t - cur))%nat
    by (rewrite chars_length; lia).
  rewrite take_app_add, drop_app_add. by rewrite <- !app_assoc.
Qed.

Lemma forEach_weave tgs pre rest cur ic :
  Z.of_nat (String.length pre) = cur + ic ->
  Forall (fun t => cur <= name_end t) tgs ->
  StronglySorted (fun a b => name_end a <= name_end b) tgs ->
  fst (fold_left forEach_callback tgs (pre +:+ rest, ic))
  = pre +:+ render (weave rest cur tgs).
Proof.
  intros Hpre Hcur Hsorted. revert pre rest cur ic Hpre Hcur.
  induction Hsorted as [|t tgs Hsorted IH Ht]; intros pre rest cur ic Hpre Hcur;
    cbn [fold_left weave render fst].
  - apply chars_inj. by rewrite !chars_app, app_nil_r.
  - apply Forall_cons in Hcur as [Hcur _].
    rewrite (forEach_callback_weave pre rest cur) by done.
    set (k := Z.to_nat (name_end t - cur)).
    rewrite (IH _ _ (cur + Z.of_nat (String.length (str_take k rest)))).
    + by rewrite !string_app_assoc.
    + rewrite !string_app_length, !Nat2Z.inj_add. lia.
    + eapply Forall_impl; [exact Ht|]. simpl. intros t' Ht'.
      rewrite str_take_length. unfold k. lia.
Qed.

Lemma spans_ok_name_end tgs :
  spans_ok tgs ->
  Forall (fun t => 0 <= name_end t) tgs /\
  StronglySorted (fun a b => name_end a <= name_end b) tgs.
Proof.
  intros [Hall Hsorted]. split.
  - eapply Forall_impl; [exact Hall|]. unfold name_end. simpl. intros t. lia.
  - clear Hall. induction Hsorted as [|t tgs _ IH Ht]; constructor; [done|].
    eapply Forall_impl; [exact Ht|]. unfold name_end. simpl. intros t'. lia.
Qed.

(** The segments of the text [instrument] returns. *)
Lemma instrument_weave text tgs :
  spans_ok tgs -> instrument text tgs = render (weave text 0 tgs).
Proof.
  intros [Hnonneg Hsorted]%spans_ok_name_end. unfold instrument.
  exact (forEach_weave tgs "" text 0 0 eq_refl Hnonneg Hsorted).
Qed.

(** ** Deleting the attributes by their syntax *)

Lemma string_app_nil_r s : s +:+ "" = s.
Proof. apply chars_inj. by rewrite chars_app, app_nil_r. Qed.

Lemma string_app_cons c u x : String c u +:+ x = String c (u +:+ x).
Proof. reflexivity. Qed.

Lemma after_prefix_app p x : after_prefix p (p +:+ x) = Some x.
Proof.
  induction p as [|a p IH]; simpl; [by destruct x|]. by rewrite decide_True.
Qed.

Lemma digits_quote_digits ds s seen :
  digits_only ds = true ->
  ds <> "" \/ seen = true ->
  digits_quote seen (ds +:+ String "'" s) = Some (S (String.length ds)).
Proof.
  revert seen. induction ds as [|c ds IH]; intros seen Hdigits Hseen.
  - destruct Hseen as [Hne|Hs]; [done|]. subst seen. reflexivity.
  - simpl in *. apply andb_true_iff in Hdigits as [-> Hds].
    rewrite IH; [done|done|by right].
Qed.

Lemma string_of_uint_digits d : digits_only (NilEmpty.string_of_uint d) = true.
Proof. induction d; simpl; try done. Qed.

(** A tag id that is not negative prints as a digit or more. *)
Lemma number_to_string_digits n :
  0 <= n ->
  digits_only (number_to_string n) = true /\ number_to_string n <> "".
Proof.
  intros Hn. unfold number_to_string.
  destruct n as [|p|p]; [by vm_compute| |lia].
  unfold Z.to_int, NilZero.string_of_int, NilZero.string_of_uint.
  destruct (Pos.to_uint p) eqn:Hp; try done;
    (split; [apply (string_of_uint_digits (_ u))|done]).
Qed.

(** The attribute string of a span matches the expression, whatever comes
    after it. *)
Lemma match_length_attrText t s :
  0 <= data t ->
  match_length (attrText t +:+ s) = Some (String.length (attrText t)).
Proof.
  intros Hdata. destruct (number_to_string_digits _ Hdata) as [Hdigits Hne].
  unfold attrText, match_length.
  rewrite !string_app_assoc, after_prefix_app.
  change ("'" +:+ s) with (String "'" s).
  rewrite digits_quote_digits by (done || by left). simpl fmap.
  rewrite !string_app_length. f_equal. simpl. lia.
Qed.

Lemma strip_go_skip a k s :
  strip_go (String.length a + k) (a +:+ s) = strip_go k s.
Proof. induction a as [|c a IH]; simpl; [done|]. apply IH. Qed.

Lemma attrText_space t : exists y, attrText t = String " " y.
Proof. unfold attrText, attr_prefix. simpl. by eexists. Qed.

(** The stripper deletes an attribute string it comes upon. *)
Lemma strip_go_attrText t s :
  0 <= data t -> strip_go 0 (attrText t +:+ s) = strip_go 0 s.
Proof.
  intros Hdata. pose proof (match_length_attrText t s Hdata) as Hmatch.
  destruct (attrText_space t) as [y Hy]. rewrite Hy in *.
  change (String " " y +:+ s) with (String " " (y +:+ s)) in *.
  cbn [strip_go]. rewrite Hmatch. cbn [String.length].
  rewrite <- (Nat.add_0_r (String.length y)). apply strip_go_skip.
Qed.

(** It leaves alone a stretch of text inside which no match starts. *)
Lemma strip_go_quiet u x :
  quiet u x -> strip_go 0 (u +:+ x) = u +:+ strip_go 0 x.
Proof.
  induction u as [|c u IH]; [done|].
  intros [Hnone Hquiet]. rewrite string_app_cons in *. cbn [strip_go].
  rewrite Hnone. by rewrite IH.
Qed.

Lemma has_attribute_match s : has_attribute s = false -> match_length s = None.
Proof.
  intros H. destruct (match_length s) eqn:Hmatch; [|done].
  destruct s; cbn [has_attribute] in H; by rewrite Hmatch in H.
Qed.

Lemma has_attribute_suffix u v :
  has_attribute (u +:+ v) = false -> has_attribute v = false.
Proof.
  induction u as [|c u IH]; [done|]. rewrite string_app_cons.
  cbn [has_attribute]. intros [_ H]%orb_false_iff. by apply IH.
Qed.

Lemma has_attribute_quiet u v : has_attribute (u +:+ v) = false -> quiet u v.
Proof.
  induction u as [|c u IH]; [done|]. intros H. split.
  - by apply has_attribute_match.
  - apply IH. rewrite string_app_cons in H. cbn [has_attribute] in H.
    by apply orb_false_iff in H as [_ H].
Qed.

(** A match cannot run over a space that is not its first code unit. *)
Lemma digits_quote_space seen w v y :
  digits_quote seen (w +:+ v) = None ->
  digits_quote seen (w +:+ String " " y) = None.
Proof.
  revert seen. induction w as [|c w IH]; intros seen.
  - intros _. simpl. by destruct seen.
  - simpl. destruct (is_digit c).
    + intros H. apply fmap_None in H. by rewrite IH.
    + by destruct (seen && _).
Qed.

Lemma after_prefix_space p w v y :
  (forall p1 p2, p <> p1 +:+ String " " p2) ->
  (after_prefix p (w +:+ v) ≫= digits_quote false) = None ->
  (after_prefix p (w +:+ String " " y) ≫= digits_quote false) = None.
Proof.
  revert w. induction p as [|a p IH]; intros w Hspace.
  - simpl. destruct w; simpl; [done|]. apply (digits_quote_space false (String _ _)).
  - destruct w as [|c w].
    + intros _. simpl. rewrite decide_False; [done|].
      intros ->. by apply (Hspace "" p).
    + simpl. destruct (decide (a = c)); [|done].
      apply IH. intros p1 p2 ->. by apply (Hspace (String a p1) p2).
Qed.

Lemma match_length_bind s :
  match_length s = None <->
  (after_prefix attr_prefix s ≫= digits_quote false) = None.
Proof.
  unfold match_length. destruct (after_prefix attr_prefix s); simpl; [|done].
  by rewrite fmap_None.
Qed.

Lemma after_prefix_cons a p c s :
  after_prefix (String a p) (String c s)
  = if decide (a = c) then after_prefix p s else None.
Proof. reflexivity. Qed.

Lemma match_length_space u v y :
  u <> "" ->
  match_length (u +:+ v) = None ->
  match_length (u +:+ String " " y) = None.
Proof.
  destruct u as [|c u]; [done|]. intros _. rewrite !match_length_bind.
  unfold attr_prefix. rewrite !string_app_cons.
  rewrite !(after_prefix_cons " " "data-brackets-id='" c).
  destruct (decide (" "%char = c)); [|done].
  apply after_prefix_space.
  intros p1 p2 Heq. apply (f_equal chars) in Heq. rewrite chars_app in Heq.
  assert (In " "%char (chars "data-brackets-id='")) as Hin.
  { rewrite Heq. apply in_elt. }
  unfold chars in Hin. simpl in Hin.
  repeat (destruct Hin as [Hin|Hin]; [discriminate Hin|]). done.
Qed.

Lemma quiet_space u v y : quiet u v -> quiet u (String " " y).
Proof.
  induction u as [|c u IH]; [done|]. intros [Hnone Hquiet].
  split; [|by apply IH]. by apply (match_length_space (String c u) v).
Qed.

(** Stripping the woven text gives back the text that was woven. *)
Lemma strip_weave tgs rest cur :
  Forall (fun t => 0 <= data t) tgs ->
  has_attribute rest = false ->
  stripInjected (render (weave rest cur tgs)) = rest.
Proof.
  unfold stripInjected. intros Hdata. revert rest cur.
  induction Hdata as [|t tgs Ht _ IH]; intros rest cur Hrest;
    cbn [weave render].
  - rewrite strip_go_quiet; [by rewrite !string_app_nil_r|].
    apply has_attribute_quiet. by rewrite string_app_nil_r.
  - set (k := Z.to_nat (name_end t - cur)).
    rewrite <- (str_take_drop k rest) in Hrest.
    destruct (attrText_space t) as [y Hy].
    rewrite strip_go_quiet.
    + rewrite strip_go_attrText by done.
      rewrite IH by by eapply has_attribute_suffix.
      apply str_take_drop.
    + rewrite Hy, string_app_cons.
      eapply quiet_space. by apply has_attribute_quiet.
Qed.

(** ** Instrument, then strip *)

Section RoundTrip.

Variable eachNode : string -> list Payload.

(** What the tokenizer delivers: the nodes of the text in document order,
    the name of an element lying inside its source text. *)
Hypothesis eachNode_order :
  forall text, document_order (Z.of_nat (String.length text)) 0 (eachNode text).
Hypothesis eachNode_names : forall text, Forall name_fits (eachNode text).

(** C8. In every state the module can reach, the text
    [generateInstrumentedHTML] returns is the document's text with the
    attribute strings of the scanned spans put in, whole and in order: cut
    into the pieces of the original and the injected strings, it gives back
    the document's text once the injected strings are deleted. Deleting by
    syntax, every match of [/ data-brackets-id='\d+'/], does the same,
    provided the document itself holds no such match. *)
Theorem C8_instrument_strip_roundtrip (doc : Document) (w : World) :
  reachable eachNode w ->
  let out := fst (generateInstrumentedHTML eachNode doc w) in
  let tgs := fst (scanDocument eachNode doc w) in
  (exists segs,
     render segs = out /\
     injected_strings segs = map attrText tgs /\
     delete_injected segs = getText doc) /\
  (has_attribute (getText doc) = false -> stripInjected out = getText doc).
Proof.
  intros Hw out tgs.
  assert (spans_ok tgs) as Hok.
  { apply (scanDocument_result eachNode spans_ok); [|done].
    intros text. by apply scanText_spans_ok. }
  assert (out = render (weave (getText doc) 0 tgs)) as ->.
  { unfold out, generateInstrumentedHTML. subst tgs.
    destruct (scanDocument eachNode doc w) as [tgs' w']. simpl in *.
    by apply instrument_weave. }
  split.
  - exists (weave (getText doc) 0 tgs).
    split; [done|]. split; [apply weave_injected|apply weave_delete].
  - intros Hfree. apply strip_weave; [|done].
    destruct Hok as [Hall _]. eapply Forall_impl; [exact Hall|].
    simpl. intros t. lia.
Qed.

End RoundTrip.

Lemma sample_eachNode_order text :
  document_order (Z.of_nat (String.length text)) 0 (sample_eachNode text).
Proof.
  unfold sample_eachNode. destruct (decide (text = "<br>")) as [->|_].
  - simpl. lia.
  - destruct (decide (text = "")) as [->|Hne]; [done|].
    destruct text as [|c text]; [done|]. simpl. lia.
Qed.

Lemma sample_eachNode_names text : Forall name_fits (sample_eachNode text).
Proof.
  unfold sample_eachNode. repeat case_decide; repeat constructor.
  - unfold name_fits, width_fits, name_width. simpl. lia.
  - unfold name_fits, width_fits. simpl. done.
Qed.

Lemma C8_instrument_strip_roundtrip_witness :
  stripInjected
    (fst (generateInstrumentedHTML sample_eachNode
            (mkDoc "/a.html" 1 "<br>") world_init))
  = "<br>".
Proof.
  refine (proj2 (C8_instrument_strip_roundtrip sample_eachNode
    sample_eachNode_order sample_eachNode_names
    (mkDoc "/a.html" 1 "<br>") world_init (reach_init _)) _).
  reflexivity.
Defined.

(** Deleting by syntax cannot tell an attribute the document already had
    from an injected one: on such a document it takes both away. *)
Lemma stripInjected_takes_own_attributes :
  let doc := "<p data-brackets-id='5'>" in
  let out := instrument doc (scanText doc [openTag "P" 0 24]) in
  out = "<p data-brackets-id='1' data-brackets-id='5'>" /\
  stripInjected out = "<p>".
Proof. by vm_compute. Qed.

(** * Further properties of the module *)

(** ** The classifier, exactly *)

Lemma matches_here_spec p s :
  matches_here p s = true <-> exists suf, upper s = upper p ++ suf.
Proof.
  unfold upper, chars. revert s. induction p as [|a p IH]; intros s.
  - simpl. split; [by eexists|done].
  - destruct s as [|b s]; simpl.
    + split; [done|]. by intros [suf Hsuf].
    + rewrite andb_true_iff, IH. split.
      * intros [Hab [suf Hsuf]]. exists suf.
        destruct (decide _) as [->|]; [|done]. by rewrite Hsuf.
      * intros [suf [= Hab Hsuf]]. split; [by rewrite decide_True|by exists suf].
Qed.

Lemma regex_test_spec alts s :
  regex_test alts s = true <->
  exists alt pre suf, alt ∈ alts /\ upper s = pre ++ upper alt ++ suf.
Proof.
  induction s as [|c s IH].
  - cbn [regex_test]. rewrite orb_false_r. split.
    + intros (alt & Halt & Hm)%existsb_exists.
      apply matches_here_spec in Hm as [suf Hsuf].
      exists alt, [], suf. split; [by apply list_elem_of_In|done].
    + intros (alt & pre & suf & Halt & Heq).
      apply existsb_exists. exists alt. split; [by apply list_elem_of_In|].
      apply matches_here_spec. exists suf.
      destruct pre; [done|discriminate Heq].
  - cbn [regex_test]. rewrite orb_true_iff, IH. split.
    + intros [(alt & Halt & Hm)%existsb_exists|(alt & pre & suf & Halt & Heq)].
      * apply matches_here_spec in Hm as [suf Hsuf].
        exists alt, [], suf. split; [by apply list_elem_of_In|done].
      * exists alt, (canonicalize c :: pre), suf. split; [done|].
        unfold upper, chars in *. simpl. by rewrite Heq.
    + intros (alt & pre & suf & Halt & Heq). destruct pre as [|x pre].
      * left. apply existsb_exists. exists alt.
        split; [by apply list_elem_of_In|].
        apply matches_here_spec. by exists suf.
      * right. exists alt, pre, suf. split; [done|].
        unfold upper, chars in *. simpl in Heq. by inversion Heq.
Qed.

(** X1. [_isEmptyTag] answers true exactly for a payload that is
    self-closed, or has no name, or has a name in which one of the sixteen
    alternatives of the regular expression occurs somewhere, letter case
    left aside. *)
Theorem X1_isEmptyTag_iff payload :
  _isEmptyTag payload = true <->
  closed payload = true \/
  name_falsy (nodeName payload) = true \/
  exists alt pre suf,
    alt ∈ emptyTagAlternatives /\
    upper (name_string (nodeName payload)) = pre ++ upper alt ++ suf.
Proof.
  rewrite <- regex_test_spec. unfold _isEmptyTag.
  destruct (closed payload); [by split; [left|]|].
  destruct (name_falsy (nodeName payload)); [by split; [right; left|]|].
  cbn [orb]. destruct (regex_test _ _).
  - split; [by right; right|done].
  - split; [done|]. by intros [|[|]].
Qed.

(** ** Nodes the scanner passes over *)

Lemma callback_irrelevant textLength st p :
  relevant p = false -> eachNode_callback textLength st p = st.
Proof.
  unfold relevant, element_event, eachNode_callback.
  destruct (closing p && _isEmptyTag p); [done|]. cbn [negb andb].
  by intros ->.
Qed.

Lemma fold_relevant textLength nodes st :
  fold_left (eachNode_callback textLength)
    (filter (fun p => relevant p = true) nodes) st
  = fold_left (eachNode_callback textLength) nodes st.
Proof.
  revert st. induction nodes as [|p nodes IH]; intros st; [done|].
  rewrite filter_cons. destruct (decide (relevant p = true)) as [Hp|Hp].
  - cbn [fold_left]. apply IH.
  - cbn [fold_left]. rewrite callback_irrelevant by by destruct (relevant p).
    apply IH.
Qed.

(** X2. Text, comments, nameless nodes and the closing tags of names
    classified as empty (a stray [</input>]) count for nothing: taking them
    out of the node stream changes neither the tag list nor the
    diagnostics. *)
Theorem X2_scan_passes_over text nodes :
  scanText text (filter (fun p => relevant p = true) nodes) = scanText text nodes /\
  scanErrors text (filter (fun p => relevant p = true) nodes) = scanErrors text nodes.
Proof.
  unfold scanText, scanErrors, emittedTags, scanNodes.
  by rewrite fold_relevant.
Qed.

(** ** One span for every tag that opens one *)

Lemma set_unclosedLength_keys textLength payload stack :
  map open_key (set_unclosedLength textLength payload stack) = map open_key stack.
Proof.
  destruct stack as [|tag rest]; simpl; [done|].
  destruct (length_falsy _); [|done].
  by destruct (decide _).
Qed.

Lemma findStartTag_name n stack startTag stack' :
  findStartTag n stack = Some (startTag, stack') ->
  nodeName (tag_payload startTag) = n.
Proof.
  revert stack'. induction stack as [|tag rest IH]; intros stack'; simpl; [done|].
  destruct (decide _) as [Heq|]; [by intros [= <- _]|].
  destruct (findStartTag n rest) as [[s r]|]; [|done].
  intros [= <- _]. by apply (IH r).
Qed.

Lemma relevant_opener_cases p :
  relevant p = true ->
  (_isEmptyTag p = true /\ opener p = true) \/
  (_isEmptyTag p = false /\ closing p = true /\ opener p = false) \/
  (_isEmptyTag p = false /\ closing p = false /\ opener p = true).
Proof.
  unfold opener. intros ->.
  destruct (_isEmptyTag p), (closing p); simpl; tauto.
Qed.

Lemma relevant_callback textLength st p :
  relevant p = true ->
  eachNode_callback textLength st p =
  let stack := set_unclosedLength textLength p (tagStack st) in
  if _isEmptyTag p then
    {| tags := tags st ++
         [ {| name := name_string (nodeName p); data := tagID st;
              start := sourceOffset p;
              end_ := sourceOffset p + sourceLength p |} ];
       tagStack := stack; tagID := tagID st + 1; errors := errors st |}
  else if closing p then
    match findStartTag (nodeName p) stack with
    | Some (startTag, stack') =>
        {| tags := tags st ++
             [ {| name := name_string (nodeName (tag_payload startTag));
                  data := tagID st;
                  start := sourceOffset (tag_payload startTag);
                  end_ := sourceOffset p + sourceLength p |} ];
           tagStack := stack'; tagID := tagID st + 1; errors := errors st |}
    | None =>
        {| tags := tags st; tagStack := stack; tagID := tagID st;
           errors := errors st ++
             [ "Unmatched end tag: " +:+ name_string (nodeName p) ] |}
    end
  else
    {| tags := tags st; tagStack := mkOpen p None :: stack;
       tagID := tagID st; errors := errors st |}.
Proof.
  unfold relevant, element_event, eachNode_callback.
  destruct (closing p && _isEmptyTag p); [done|]. cbn [negb andb].
  by intros ->.
Qed.

Lemma keys_callback textLength st p :
  map span_key (tags (eachNode_callback textLength st p))
    ++ map open_key (tagStack (eachNode_callback textLength st p))
  ≡ₚ (if opener p then [payload_key p] else [])
     ++ map span_key (tags st) ++ map open_key (tagStack st).
Proof.
  destruct (relevant p) eqn:Hrel.
  - rewrite relevant_callback by done. cbn zeta.
    destruct (relevant_opener_cases p Hrel)
      as [[-> ->]|[(-> & -> & ->)|(-> & -> & ->)]].
    + simpl. rewrite set_unclosedLength_keys, map_app. simpl.
      rewrite <- app_assoc. simpl. by rewrite <- Permutation_middle.
    + destruct (findStartTag _ _) as [[startTag stack']|] eqn:Hfind; simpl.
      * rewrite <- (set_unclosedLength_keys textLength p (tagStack st)).
        rewrite (findStartTag_perm _ _ _ _ Hfind), map_app. simpl.
        rewrite <- app_assoc. simpl. done.
      * by rewrite set_unclosedLength_keys.
    + simpl. rewrite set_unclosedLength_keys. by rewrite <- Permutation_middle.
  - rewrite callback_irrelevant by done. unfold opener. by rewrite Hrel.
Qed.

Lemma keys_fold textLength nodes st :
  let st' := fold_left (eachNode_callback textLength) nodes st in
  map span_key (tags st') ++ map open_key (tagStack st')
  ≡ₚ (map span_key (tags st) ++ map open_key (tagStack st))
     ++ map payload_key (filter (fun p => opener p = true) nodes).
Proof.
  revert st. induction nodes as [|p nodes IH]; intros st; cbn zeta.
  - simpl. by rewrite app_nil_r.
  - cbn [fold_left]. rewrite IH, keys_callback, filter_cons.
    destruct (decide (opener p = true)) as [Hp|Hp].
    + rewrite Hp. simpl. by rewrite <- Permutation_middle.
    + by destruct (opener p).
Qed.

Lemma keys_drain stack tgs id :
  map span_key (fst (drain stack tgs id))
  ≡ₚ map span_key tgs ++ map open_key stack.
Proof.
  revert tgs id. induction stack as [|tag stack IH]; intros tgs id; simpl.
  - by rewrite app_nil_r.
  - rewrite IH, map_app. simpl. by rewrite <- app_assoc.
Qed.

(** A span of a scan has the name and the start of a tag of the stream. *)
Lemma scanText_keys text nodes :
  map span_key (scanText text nodes)
  ≡ₚ map payload_key (filter (fun p => opener p = true) nodes).
Proof.
  unfold scanText. rewrite array_sort_perm. unfold emittedTags, scanNodes.
  rewrite keys_drain.
  by rewrite (keys_fold (Z.of_nat (String.length text)) nodes scan_init).
Qed.

(** X3. Whatever the node stream, the returned list has exactly one span
    for every tag that is classified as empty or is an opening tag, with
    the name and the start of that tag, and no other span: closing tags and
    the end of the text only close what was opened. *)
Theorem X3_one_span_per_opener text nodes :
  map span_key (scanText text nodes)
  ≡ₚ map payload_key (filter (fun p => opener p = true) nodes).
Proof. apply scanText_keys. Qed.

(** ** Documents whose tags are properly nested *)

Lemma findStartTag_top n stack o payloads :
  map tag_payload stack = o :: payloads ->
  nodeName o = n ->
  exists e rest,
    findStartTag n stack = Some (e, rest) /\
    tag_payload e = o /\ map tag_payload rest = payloads.
Proof.
  destruct stack as [|e rest]; [done|]. simpl. intros [= He Hrest] Hn.
  exists e, rest. rewrite decide_True by congruence. done.
Qed.

Lemma nested_fold textLength w s :
  nested w s ->
  forall st,
    let st' := fold_left (eachNode_callback textLength) w st in
    map span_extent (tags st') = map span_extent (tags st) ++ s /\
    errors st' = errors st /\
    map tag_payload (tagStack st') = map tag_payload (tagStack st).
Proof.
  induction 1 as [|p w s Hp _ IH|p w s Hp Hempty _ IH
                  |o inner c w s1 s2 Ho Hoe Hoc Hc Hce Hcc Hname _ IH1 _ IH2];
    intros st; cbn zeta.
  - simpl. by rewrite app_nil_r.
  - cbn [fold_left]. rewrite callback_irrelevant by done. apply IH.
  - cbn [fold_left]. rewrite relevant_callback by done. cbn zeta.
    rewrite Hempty.
    edestruct IH as (Htags & Herrors & Hstack).
    rewrite Htags, Herrors, Hstack. simpl.
    rewrite set_unclosedLength_payloads, map_app, <- app_assoc. done.
  - cbn [fold_left]. rewrite fold_left_app. cbn [fold_left].
    rewrite (relevant_callback _ st o) by done. cbn zeta. rewrite Hoe, Hoc.
    set (st1 := {| tags := tags st;
                   tagStack := mkOpen o None :: set_unclosedLength textLength o (tagStack st);
                   tagID := tagID st; errors := errors st |}).
    destruct (IH1 st1) as (Htags1 & Herrors1 & Hstack1).
    set (st2 := fold_left (eachNode_callback textLength) inner st1) in *.
    rewrite (relevant_callback _ st2 c) by done. cbn zeta. rewrite Hce, Hcc.
    destruct (findStartTag_top (nodeName c)
                (set_unclosedLength textLength c (tagStack st2)) o
                (map tag_payload (tagStack st)))
      as (e & rest & -> & He & Hrest).
    { rewrite set_unclosedLength_payloads, Hstack1. simpl.
      by rewrite set_unclosedLength_payloads. }
    { done. }
    edestruct IH2 as (Htags2 & Herrors2 & Hstack2).
    rewrite Htags2, Herrors2, Hstack2. simpl.
    rewrite He, Hrest, map_app, Htags1, Herrors1. simpl.
    by rewrite <- !app_assoc.
Qed.

(** X4. For a node stream whose tags are properly nested, each opening tag
    having its closing tag, the scan reports nothing and leaves nothing
    open: the spans are pushed in the order in which the tags close, a
    child before its parent, each from the start of its opening tag to the
    end of its closing tag (of the tag itself when it is classified as
    empty), and they are numbered 1, 2, ... in that order. *)
Theorem X4_nested_scan text nodes s :
  nested nodes s ->
  map span_extent (emittedTags text nodes) = s /\
  map data (emittedTags text nodes) = seqZ 1 (Z.of_nat (length s)) /\
  tagStack (scanNodes (Z.of_nat (String.length text)) nodes) = [] /\
  scanErrors text nodes = [].
Proof.
  intros Hnested.
  destruct (nested_fold (Z.of_nat (String.length text)) nodes s Hnested scan_init)
    as (Htags & Herrors & Hstack).
  assert (tagStack (scanNodes (Z.of_nat (String.length text)) nodes) = [])
    as Hempty by (by apply map_eq_nil in Hstack).
  assert (map span_extent (emittedTags text nodes) = s) as Hextents.
  { unfold emittedTags. rewrite Hempty. simpl. exact Htags. }
  split; [done|]. split; [|done].
  rewrite emittedTags_ids. by rewrite <- Hextents, length_map.
Qed.

Lemma X4_nested_scan_witness :
  map span_extent
    (emittedTags "<div><span>x</span></div>"
       [openTag "DIV" 0 5; openTag "SPAN" 5 6; textNode 11 1;
        closeTag "SPAN" 12 7; closeTag "DIV" 19 6])
  = [("SPAN", 5, 19); ("DIV", 0, 25)].
Proof.
  refine (proj1 (X4_nested_scan _ _ _ _)).
  apply (nested_element (openTag "DIV" 0 5)
           [openTag "SPAN" 5 6; textNode 11 1; closeTag "SPAN" 12 7]
           (closeTag "DIV" 19 6) [] [("SPAN", 5, 19)] []);
    try reflexivity; [|constructor].
  apply (nested_element (openTag "SPAN" 5 6) [textNode 11 1]
           (closeTag "SPAN" 12 7) [] [] []); try reflexivity; [|constructor].
  apply nested_skip; [reflexivity|constructor].
Defined.

(** ** Spans stay inside the document *)

Lemma set_unclosedLength_within textLength payload stack :
  node_within textLength payload ->
  Forall (open_within textLength) stack ->
  Forall (open_within textLength) (set_unclosedLength textLength payload stack).
Proof.
  intros (Hoff & Hlen & Hend) Hstack.
  destruct Hstack as [|tag rest [Htag Hu] Hrest]; simpl; [constructor|].
  destruct (length_falsy (unclosedLength tag)); [|by constructor].
  destruct (decide _); constructor; try done;
    (split; [done|]); simpl; lia.
Qed.

Lemma within_callback textLength st payload :
  node_within textLength payload ->
  Forall (span_within textLength) (tags st) ->
  Forall (open_within textLength) (tagStack st) ->
  Forall (span_within textLength) (tags (eachNode_callback textLength st payload)) /\
  Forall (open_within textLength) (tagStack (eachNode_callback textLength st payload)).
Proof.
  intros Hp Htags Hstack.
  pose proof (set_unclosedLength_within _ _ _ Hp Hstack) as Hpatched.
  destruct Hp as (Hoff & Hlen & Hend).
  destruct (relevant payload) eqn:Hrel;
    [|by rewrite callback_irrelevant by done].
  rewrite relevant_callback by done. cbn zeta.
  destruct (_isEmptyTag payload).
  { split; simpl; [|done]. apply Forall_app. split; [done|].
    repeat constructor; simpl; lia. }
  destruct (closing payload).
  - destruct (findStartTag _ _) as [[startTag stack']|] eqn:Hfind; [|done].
    destruct (findStartTag_Forall _ _ _ _ _ Hfind Hpatched)
      as [[(Hso & _ & _) _] Hrest].
    split; simpl; [|done]. apply Forall_app. split; [done|].
    repeat constructor; simpl; lia.
  - split; simpl; [done|]. constructor; [|done]. by split.
Qed.

Lemma within_drain textLength stack tgs id :
  Forall (open_within textLength) stack ->
  Forall (span_within textLength) tgs ->
  Forall (span_within textLength) (fst (drain stack tgs id)).
Proof.
  intros Hstack. revert tgs id.
  induction Hstack as [|tag stack [(Hoff & Hlen & Hend) Hu] _ IH];
    intros tgs id Htgs; simpl; [done|].
  apply IH. apply Forall_app. split; [done|]. repeat constructor; simpl; [done|].
  unfold unclosed_or_source. destruct (unclosedLength tag) as [u|]; [|done].
  by destruct (u =? 0).
Qed.

(** X5. When every node lies in the text, so does every span of the
    returned list: 0 <= start and end <= length of the text, also for the
    tags that are never closed. *)
Theorem X5_spans_within_text text nodes :
  Forall (node_within (Z.of_nat (String.length text))) nodes ->
  Forall (span_within (Z.of_nat (String.length text))) (scanText text nodes).
Proof.
  intros Hnodes. unfold scanText. rewrite array_sort_perm.
  unfold emittedTags, scanNodes.
  set (textLength := Z.of_nat (String.length text)) in *.
  assert (Forall (span_within textLength)
            (tags (fold_left (eachNode_callback textLength) nodes scan_init)) /\
          Forall (open_within textLength)
            (tagStack (fold_left (eachNode_callback textLength) nodes scan_init)))
    as [Htags Hstack].
  { assert (Forall (span_within textLength) (tags scan_init) /\
            Forall (open_within textLength) (tagStack scan_init)) as Hinit
      by (split; constructor).
    revert Hinit. generalize scan_init.
    induction Hnodes as [|p nodes Hp _ IH]; intros st [Htags Hstack]; [done|].
    cbn [fold_left]. apply IH. by apply within_callback. }
  by apply within_drain.
Qed.

Lemma X5_spans_within_text_witness :
  Forall (span_within 12)
    (scanText "<div><p>text" [openTag "DIV" 0 5; openTag "P" 5 3; textNode 8 4]).
Proof.
  refine (X5_spans_within_text "<div><p>text" _ _).
  repeat constructor; simpl; lia.
Defined.

(** ** Where the span of a tag left open ends *)

Lemma set_unclosedLength_keeps textLength payload stack e :
  length_falsy (unclosedLength e) = false ->
  e ∈ stack -> e ∈ set_unclosedLength textLength payload stack.
Proof.
  intros He Hin. destruct stack as [|tag rest]; [done|]. simpl.
  apply elem_of_cons in Hin as [<-|Hin].
  - rewrite He. by left.
  - destruct (length_falsy (unclosedLength tag)); [|by right].
    destruct (decide _); by right.
Qed.

(** An entry whose unclosed extent is set stays as it is on the stack until
    a closing tag of its name comes. *)
Lemma callback_keeps textLength st p o u :
  u <> 0 ->
  closes o p = false ->
  mkOpen o (Some u) ∈ tagStack st ->
  mkOpen o (Some u) ∈ tagStack (eachNode_callback textLength st p).
Proof.
  intros Hu Hcloses Hin.
  destruct (relevant p) eqn:Hrel;
    [|by rewrite callback_irrelevant by done].
  assert (mkOpen o (Some u) ∈ set_unclosedLength textLength p (tagStack st))
    as Hpatched.
  { apply set_unclosedLength_keeps; [|done]. simpl. by apply Z.eqb_neq. }
  rewrite relevant_callback by done. cbn zeta.
  destruct (_isEmptyTag p); [done|].
  destruct (closing p) eqn:Hclosing; [|by right].
  destruct (findStartTag _ _) as [[startTag stack']|] eqn:Hfind; [|done].
  simpl. rewrite (findStartTag_perm _ _ _ _ Hfind) in Hpatched.
  apply elem_of_cons in Hpatched as [Heq|Hrest]; [|done].
  apply findStartTag_name in Hfind. rewrite <- Heq in Hfind. simpl in Hfind.
  unfold closes in Hcloses. rewrite Hrel, Hclosing in Hcloses.
  by rewrite decide_True in Hcloses.
Qed.

Lemma fold_keeps textLength nodes st o u :
  u <> 0 ->
  Forall (fun p => closes o p = false) nodes ->
  mkOpen o (Some u) ∈ tagStack st ->
  mkOpen o (Some u) ∈ tagStack (fold_left (eachNode_callback textLength) nodes st).
Proof.
  intros Hu Hnodes. revert st.
  induction Hnodes as [|p nodes Hp _ IH]; intros st Hin; [done|].
  cbn [fold_left]. apply IH. by apply callback_keeps.
Qed.

Lemma drain_spans stack tgs id :
  (forall t, t ∈ tgs -> t ∈ fst (drain stack tgs id)) /\
  (forall e, e ∈ stack ->
     exists n,
       {| name := name_string (nodeName (tag_payload e)); data := n;
          start := sourceOffset (tag_payload e);
          end_ := sourceOffset (tag_payload e) + unclosed_or_source e |}
       ∈ fst (drain stack tgs id)).
Proof.
  revert tgs id. induction stack as [|tag stack IH]; intros tgs id; simpl.
  - split; [done|]. intros e He. by apply elem_of_nil in He.
  - destruct (IH (tgs ++
      [ {| name := name_string (nodeName (tag_payload tag)); data := id;
           start := sourceOffset (tag_payload tag);
           end_ := sourceOffset (tag_payload tag) + unclosed_or_source tag |} ])
      (id + 1)) as [Htgs Hstack].
    split.
    + intros t Ht. apply Htgs, elem_of_app. by left.
    + intros e [<-|He]%elem_of_cons; [|by apply Hstack].
      exists id. apply Htgs, elem_of_app. right. by left.
Qed.

(** X6. A tag that is opened and never closed gets a span that starts at
    the tag and ends, when an element follows it, where that element starts
    (at the end of the text for HTML and BODY), and when none follows, where
    the tag itself ends. The extent measured to the next element must not
    be 0. *)
Theorem X6_span_of_unclosed_tag text before o between :
  relevant o = true -> _isEmptyTag o = false -> closing o = false ->
  Forall (fun q => relevant q = false) between ->
  (exists n,
     {| name := name_string (nodeName o); data := n;
        start := sourceOffset o;
        end_ := sourceOffset o + sourceLength o |}
     ∈ scanText text (before ++ o :: between)) /\
  (forall p after,
     relevant p = true ->
     Forall (fun q => closes o q = false) (p :: after) ->
     unclosed_extent (Z.of_nat (String.length text)) o p <> 0 ->
     exists n,
       {| name := name_string (nodeName o); data := n;
          start := sourceOffset o;
          end_ := sourceOffset o
                  + unclosed_extent (Z.of_nat (String.length text)) o p |}
       ∈ scanText text (before ++ o :: between ++ p :: after)).
Proof.
  intros Ho Hoe Hoc Hbetween.
  set (textLength := Z.of_nat (String.length text)).
  set (st0 := fold_left (eachNode_callback textLength) before scan_init).
  assert (forall rest,
    fold_left (eachNode_callback textLength) (before ++ o :: between ++ rest)
      scan_init
    = fold_left (eachNode_callback textLength) rest
        {| tags := tags st0;
           tagStack := mkOpen o None
                       :: set_unclosedLength textLength o (tagStack st0);
           tagID := tagID st0; errors := errors st0 |}) as Hprefix.
  { intros rest. rewrite fold_left_app. cbn [fold_left]. fold st0.
    rewrite (relevant_callback _ st0 o) by done. cbn zeta. rewrite Hoe, Hoc.
    rewrite fold_left_app.
    rewrite <- (fold_relevant _ between).
    assert (filter (fun q => relevant q = true) between = []) as ->; [|done].
    clear -Hbetween. induction Hbetween as [|q between Hq _ IH]; [done|].
    rewrite filter_cons, decide_False by congruence. done. }
  split.
  - specialize (Hprefix []). rewrite app_nil_r in Hprefix.
    unfold scanText, emittedTags, scanNodes. fold textLength.
    rewrite Hprefix. cbn [fold_left tags tagStack tagID].
    edestruct (drain_spans
      (mkOpen o None :: set_unclosedLength textLength o (tagStack st0))
      (tags st0) (tagID st0)) as [_ Hstack].
    destruct (Hstack (mkOpen o None)) as [n Hn]; [by left|].
    exists n. by rewrite array_sort_perm.
  - intros p after Hp Hafter Hext.
    apply Forall_cons in Hafter as [Hpo Hafter].
    unfold scanText, emittedTags, scanNodes. fold textLength.
    rewrite Hprefix. cbn [fold_left].
    set (st1 := {| tags := tags st0;
                   tagStack := mkOpen o None
                               :: set_unclosedLength textLength o (tagStack st0);
                   tagID := tagID st0; errors := errors st0 |}).
    set (u := unclosed_extent textLength o p) in *.
    assert (mkOpen o (Some u) ∈ tagStack (eachNode_callback textLength st1 p))
      as Hin.
    { assert (set_unclosedLength textLength p (tagStack st1)
              = mkOpen o (Some u)
                :: set_unclosedLength textLength o (tagStack st0)) as Hpatch.
      { unfold st1, u, unclosed_extent. simpl. by destruct (decide _). }
      rewrite relevant_callback by done. cbn zeta. rewrite Hpatch.
      destruct (_isEmptyTag p); [by left|].
      destruct (closing p) eqn:Hclosing; [|by right; left].
      unfold closes in Hpo. rewrite Hp, Hclosing in Hpo. simpl in Hpo.
      simpl. rewrite decide_False by (intros Heq; by rewrite decide_True in Hpo).
      destruct (findStartTag _ _) as [[s r]|]; by left. }
    pose proof (fold_keeps textLength after _ o u Hext Hafter Hin) as Hend.
    set (st2 := fold_left (eachNode_callback textLength) after
                  (eachNode_callback textLength st1 p)) in *.
    destruct (drain_spans (tagStack st2) (tags st2) (tagID st2)) as [_ Hstack].
    destruct (Hstack _ Hend) as [n Hn]. exists n.
    rewrite array_sort_perm.
    unfold unclosed_or_source in Hn. simpl in Hn.
    by rewrite (proj2 (Z.eqb_neq u 0) Hext) in Hn.
Qed.

Lemma X6_span_of_unclosed_tag_witness :
  exists n,
    {| name := "BODY"; data := n; start := 0; end_ := 16 |}
    ∈ scanText "<body><p>one</p>"
        [openTag "BODY" 0 6; openTag "P" 6 3; textNode 9 3; closeTag "P" 12 4].
Proof.
  refine (proj2 (X6_span_of_unclosed_tag "<body><p>one</p>" []
    (openTag "BODY" 0 6) [] _ _ _ _) (openTag "P" 6 3)
    [textNode 9 3; closeTag "P" 12 4] _ _ _); try reflexivity.
  - constructor.
  - repeat constructor.
  - vm_compute. discriminate.
Defined.

(** ** The injected attributes are all different *)

Lemma to_int_not_nil n : Z.to_int n <> Decimal.Pos Decimal.Nil /\
                         Z.to_int n <> Decimal.Neg Decimal.Nil.
Proof.
  destruct n as [|p|p]; simpl; split; try discriminate;
    intros [= H]; by apply DecimalPos.Unsigned.to_uint_nonnil in H.
Qed.

Lemma number_to_string_inj n1 n2 :
  number_to_string n1 = number_to_string n2 -> n1 = n2.
Proof.
  unfold number_to_string. intros H.
  apply (f_equal NilZero.int_of_string) in H.
  destruct (to_int_not_nil n1), (to_int_not_nil n2).
  rewrite !NilZero.isi in H by done.
  apply DecimalZ.to_int_inj. congruence.
Qed.

Lemma attrText_inj t1 t2 : attrText t1 = attrText t2 -> data t1 = data t2.
Proof.
  unfold attrText. intros H. apply number_to_string_inj.
  apply (f_equal chars) in H. rewrite !chars_app in H.
  apply app_inv_head, app_inv_tail in H. by apply chars_inj.
Qed.

(** X7. The attribute strings of the spans of one scan are pairwise
    different: no two tags of an instrumented text carry the same
    [data-brackets-id]. *)
Theorem X7_attributes_unique text nodes :
  NoDup (map attrText (scanText text nodes)).
Proof.
  assert (NoDup (map data (scanText text nodes))) as Hdata
    by (rewrite scanText_ids; apply NoDup_seqZ).
  induction (scanText text nodes) as [|t l IH]; [constructor|].
  simpl in *. apply NoDup_cons in Hdata as [Ht Hl].
  apply NoDup_cons. split; [|by apply IH].
  intros (t' & Heq & Hin)%list_elem_of_fmap. apply Ht.
  rewrite (attrText_inj _ _ Heq). by apply list_elem_of_fmap_2.
Qed.

(** ** The length of the instrumented text *)

Lemma insertAt_length i a s :
  String.length (insertAt i a s) = (String.length s + String.length a)%nat.
Proof.
  rewrite <- !chars_length, chars_insertAt, !length_app.
  rewrite length_take, length_drop. lia.
Qed.

Lemma insert_attributes_length prior todo gen :
  Z.of_nat (String.length (insert_attributes prior todo gen))
  = Z.of_nat (String.length gen) + inserted_length todo.
Proof.
  revert prior gen. induction todo as [|t todo IH]; intros prior gen.
  - simpl. unfold inserted_length. simpl. lia.
  - cbn [insert_attributes]. rewrite IH, insertAt_length.
    change (inserted_length (t :: todo))
      with (Z.of_nat (String.length (attrText t)) + inserted_length todo).
    lia.
Qed.

(** X8. When no span starts at a negative offset, the instrumented text is
    longer than the text by the total length of the attribute strings of
    the spans: every insertion adds its string and takes nothing away, also
    when its index lies beyond the end of the text. *)
Theorem X8_instrument_length text tgs :
  Forall (fun t => 0 <= start t) tgs ->
  Z.of_nat (String.length (instrument text tgs))
  = Z.of_nat (String.length text) + inserted_length tgs.
Proof.
  intros H. rewrite instrument_insert_attributes by done.
  apply insert_attributes_length.
Qed.

Lemma X8_instrument_length_witness :
  Z.of_nat (String.length
    (instrument "<p>" [ {| name := "P"; data := 1; start := 0; end_ := 3 |};
                        {| name := "B"; data := 2; start := 40; end_ := 43 |} ]))
  = 3 + 21 + 21.
Proof.
  refine (X8_instrument_length "<p>" _ _).
  repeat constructor; simpl; lia.
Defined.

(** ** The cache between calls *)

Section CacheUse.

Variable eachNode : string -> list Payload.
Variables (Tracker : Type).
Variable markText : Editor -> list TagSpan -> string -> Tracker -> Tracker.

(** After any call the cache holds, under the path of the document, the
    document's timestamp and the list that was returned. *)
Lemma scanDocument_stored doc w :
  _cachedValues (snd (scanDocument eachNode doc w)) !! fullPath doc
  = Some {| timestamp := diskTimestamp doc;
            snapshot_tags := fst (scanDocument eachNode doc w) |}.
Proof.
  unfold scanDocument.
  destruct (_cachedValues w !! fullPath doc) as [[ts tgs]|] eqn:Hlookup.
  - destruct (decide _) as [Hts|Hts]; simpl in *.
    + by rewrite Hlookup, Hts.
    + by rewrite lookup_insert_eq.
  - simpl. by rewrite lookup_insert_eq.
Qed.

Lemma scanDocument_other doc w path :
  path <> fullPath doc ->
  _cachedValues (snd (scanDocument eachNode doc w)) !! path
  = _cachedValues w !! path.
Proof.
  intros Hpath. unfold scanDocument.
  destruct (_cachedValues w !! fullPath doc) as [cv|];
    [destruct (decide _); [done|]|]; simpl; by rewrite lookup_insert_ne.
Qed.

(** What a call does depends on the cache through the snapshot at the
    document's path alone. *)
Lemma scanDocument_same_lookup doc w1 w2 :
  _cachedValues w1 !! fullPath doc = _cachedValues w2 !! fullPath doc ->
  fst (scanDocument eachNode doc w1) = fst (scanDocument eachNode doc w2) /\
  (eachNode_calls (snd (scanDocument eachNode doc w1)) - eachNode_calls w1
   = eachNode_calls (snd (scanDocument eachNode doc w2)) - eachNode_calls w2)%nat.
Proof.
  intros Hlookup. unfold scanDocument. rewrite Hlookup.
  destruct (_cachedValues w2 !! fullPath doc) as [cv|];
    [destruct (decide _)|]; simpl; split; try done; lia.
Qed.

(** X9. A second call of [scanDocument] for the same path and timestamp,
    whatever state the first call started from and whatever the text has
    become, returns the list of the first call and changes nothing: the
    tokenizer is not called and nothing is reported. The same holds of
    [generateInstrumentedHTML] called twice on a document. *)
Theorem X9_second_call_from_cache doc w :
  let tgs := fst (scanDocument eachNode doc w) in
  let w' := snd (scanDocument eachNode doc w) in
  (forall doc',
     fullPath doc' = fullPath doc -> diskTimestamp doc' = diskTimestamp doc ->
     scanDocument eachNode doc' w' = (tgs, w')) /\
  generateInstrumentedHTML eachNode doc
    (snd (generateInstrumentedHTML eachNode doc w))
  = generateInstrumentedHTML eachNode doc w.
Proof.
  intros tgs w'.
  assert (forall doc',
    fullPath doc' = fullPath doc -> diskTimestamp doc' = diskTimestamp doc ->
    scanDocument eachNode doc' w' = (tgs, w')) as Hsecond.
  { intros doc' Hpath Htime. unfold scanDocument at 1.
    rewrite Hpath. unfold w'. rewrite scanDocument_stored. simpl.
    by rewrite decide_True. }
  split; [done|].
  pose proof (Hsecond doc eq_refl eq_refl) as Hagain.
  unfold generateInstrumentedHTML. subst tgs w'. clear Hsecond.
  destruct (scanDocument eachNode doc w) as [r w1]. simpl in *.
  by rewrite Hagain.
Qed.

(** X10. Scans of documents at different paths do not interfere: each
    returns the list it would have returned had it come first, and in either
    order the cache ends up the same, after the same number of calls of the
    tokenizer. *)
Theorem X10_scans_commute a b w :
  fullPath a <> fullPath b ->
  let wa := snd (scanDocument eachNode a w) in
  let wb := snd (scanDocument eachNode b w) in
  fst (scanDocument eachNode b wa) = fst (scanDocument eachNode b w) /\
  fst (scanDocument eachNode a wb) = fst (scanDocument eachNode a w) /\
  _cachedValues (snd (scanDocument eachNode b wa))
  = _cachedValues (snd (scanDocument eachNode a wb)) /\
  eachNode_calls (snd (scanDocument eachNode b wa))
  = eachNode_calls (snd (scanDocument eachNode a wb)).
Proof.
  intros Hpath wa wb.
  destruct (scanDocument_same_lookup b wa w) as [Hb Hcb].
  { by apply scanDocument_other. }
  destruct (scanDocument_same_lookup a wb w) as [Ha Hca].
  { by apply scanDocument_other. }
  split; [done|]. split; [done|]. split.
  - apply map_eq. intros path.
    destruct (decide (path = fullPath b)) as [->|Hnb].
    + rewrite scanDocument_stored, Hb.
      rewrite scanDocument_other by done. unfold wb.
      by rewrite scanDocument_stored.
    + rewrite (scanDocument_other b wa) by done.
      destruct (decide (path = fullPath a)) as [->|Hna].
      * unfold wa. rewrite !scanDocument_stored. by rewrite Ha.
      * unfold wa, wb. by rewrite !scanDocument_other by done.
  - assert (forall doc w0,
      (eachNode_calls w0 <= eachNode_calls (snd (scanDocument eachNode doc w0)))%nat)
      as Hmono.
    { intros doc w0. unfold scanDocument.
      destruct (_cachedValues w0 !! fullPath doc) as [cv|];
        [destruct (decide _)|]; simpl; lia. }
    pose proof (Hmono a w). pose proof (Hmono b w).
    pose proof (Hmono b wa). pose proof (Hmono a wb).
    subst wa wb. lia.
Qed.

(** X11. [_markText] called after [scanDocument] or
    [generateInstrumentedHTML] for the editor's document, from whatever
    state, reports nothing and hands the tracker the very list that call
    worked with. *)
Theorem X11_markText_after_scan editor w tr :
  let doc := document editor in
  _markText markText editor (snd (scanDocument eachNode doc w)) tr
  = (snd (scanDocument eachNode doc w),
     markText editor (fst (scanDocument eachNode doc w)) "htmlTagID" tr) /\
  _markText markText editor (snd (generateInstrumentedHTML eachNode doc w)) tr
  = (snd (generateInstrumentedHTML eachNode doc w),
     markText editor (fst (scanDocument eachNode doc w)) "htmlTagID" tr).
Proof.
  intros doc.
  assert (snd (generateInstrumentedHTML eachNode doc w)
          = snd (scanDocument eachNode doc w)) as ->.
  { unfold generateInstrumentedHTML. by destruct (scanDocument eachNode doc w). }
  assert (_markText markText editor (snd (scanDocument eachNode doc w)) tr
    = (snd (scanDocument eachNode doc w),
       markText editor (fst (scanDocument eachNode doc w)) "htmlTagID" tr)) as H.
  { unfold _markText. fold doc. by rewrite scanDocument_stored. }
  done.
Qed.

(** X12. In every state the module can reach, the list [scanDocument]
    returns, be it cached or fresh, is sorted in ascending order of start
    and carries the identities 1..n, each once. *)
Theorem X12_returned_list_invariants doc w :
  reachable eachNode w ->
  let tgs := fst (scanDocument eachNode doc w) in
  StronglySorted le_start tgs /\
  map data tgs ≡ₚ seqZ 1 (Z.of_nat (length tgs)) /\
  NoDup (map data tgs).
Proof.
  intros Hw tgs.
  assert (StronglySorted le_start tgs /\
          map data tgs ≡ₚ seqZ 1 (Z.of_nat (length tgs))) as [Hsorted Hids].
  { apply (scanDocument_result eachNode
      (fun l => StronglySorted le_start l /\
                map data l ≡ₚ seqZ 1 (Z.of_nat (length l)))); [|done].
    intros text. split; [apply array_sort_sorted|apply scanText_ids]. }
  split; [done|]. split; [done|]. rewrite Hids. apply NoDup_seqZ.
Qed.

End CacheUse.

Lemma X9_second_call_from_cache_witness :
  let w := snd (scanDocument sample_eachNode (mkDoc "/a.html" 1 "<br>") world_init) in
  scanDocument sample_eachNode (mkDoc "/a.html" 1 "edited") w
  = (fst (scanDocument sample_eachNode (mkDoc "/a.html" 1 "<br>") world_init), w).
Proof.
  intros w.
  refine (proj1 (X9_second_call_from_cache sample_eachNode
    (mkDoc "/a.html" 1 "<br>") world_init) (mkDoc "/a.html" 1 "edited") _ _);
    reflexivity.
Defined.

Lemma X10_scans_commute_witness :
  fst (scanDocument sample_eachNode (mkDoc "/b.html" 2 "<br>")
         (snd (scanDocument sample_eachNode (mkDoc "/a.html" 1 "x") world_init)))
  = fst (scanDocument sample_eachNode (mkDoc "/b.html" 2 "<br>") world_init).
Proof.
  refine (proj1 (X10_scans_commute sample_eachNode (mkDoc "/a.html" 1 "x")
    (mkDoc "/b.html" 2 "<br>") world_init _)).
  simpl. discriminate.
Defined.


Lemma X12_returned_list_invariants_witness :
  StronglySorted le_start
    (fst (scanDocument sample_eachNode (mkDoc "/a.html" 1 "<br>") world_init)).
Proof.
  refine (proj1 (X12_returned_list_invariants sample_eachNode
    (mkDoc "/a.html" 1 "<br>") world_init (reach_init _))).
Defined.

(** ** The attribute comes right after the name of its tag *)

Lemma str_drop_length n s :
  String.length (str_drop n s) = (String.length s - n)%nat.
Proof. by rewrite <- !chars_length, chars_str_drop, length_drop. Qed.

Lemma str_take_split n m s :
  str_take (n + m) s = str_take n s +:+ str_take m (str_drop n s).
Proof.
  apply chars_inj.
  by rewrite chars_app, !chars_str_take, chars_str_drop, take_take_drop.
Qed.

Lemma str_drop_drop n m s : str_drop n (str_drop m s) = str_drop (m + n) s.
Proof. apply chars_inj. by rewrite !chars_str_drop, drop_drop. Qed.

Lemma inserted_length_cons t l :
  inserted_length (t :: l)
  = Z.of_nat (String.length (attrText t)) + inserted_length l.
Proof. reflexivity. Qed.

Lemma weave_placement tgs :
  forall k t rest cur,
    StronglySorted (fun a b => name_end a <= start b) tgs ->
    Forall (fun t' => cur <= start t') tgs ->
    tgs !! k = Some t ->
    name_end t <= cur + Z.of_nat (String.length rest) ->
    exists A B,
      render (weave rest cur tgs)
      = A +:+ str_take (S (String.length (name t)))
                (str_drop (Z.to_nat (start t - cur)) rest)
          +:+ attrText t +:+ B /\
      Z.of_nat (String.length A)
      = start t - cur + inserted_length (take k tgs).
Proof.
  induction tgs as [|a tgs IH]; intros k t rest cur Hsorted Hcur Hk Hend;
    [done|].
  apply StronglySorted_inv in Hsorted as [Hsorted Ha].
  apply Forall_cons in Hcur as [Hcura Hcur].
  cbn [weave render]. destruct k as [|k].
  - injection Hk as ->.
    exists (str_take (Z.to_nat (start t - cur)) rest),
           (render (weave
              (str_drop (Z.to_nat (name_end t - cur)) rest)
              (cur + Z.of_nat (String.length
                 (str_take (Z.to_nat (name_end t - cur)) rest))) tgs)).
    split.
    + replace (Z.to_nat (name_end t - cur))
        with (Z.to_nat (start t - cur) + S (String.length (name t)))%nat
        by (unfold name_end; lia).
      rewrite str_take_split. by rewrite !string_app_assoc.
    + rewrite str_take_length. unfold name_end in Hend.
      unfold inserted_length. simpl. lia.
  - simpl in Hk.
    assert (name_end a <= start t) as Hat.
    { rewrite Forall_forall in Ha. apply Ha. by eapply list_elem_of_lookup_2. }
    set (k0 := Z.to_nat (name_end a - cur)).
    assert (String.length (str_take k0 rest) = k0) as Hlen.
    { rewrite str_take_length. unfold name_end in *. lia. }
    rewrite Hlen.
    destruct (IH k t (str_drop k0 rest) (cur + Z.of_nat k0) Hsorted)
      as (A & B & Hrender & HA); [|done|..].
    { eapply Forall_impl; [exact Ha|]. simpl. intros t'.
      unfold k0, name_end. lia. }
    { rewrite str_drop_length. unfold k0, name_end in *. lia. }
    exists (str_take k0 rest +:+ attrText a +:+ A), B. split.
    + rewrite Hrender, str_drop_drop.
      replace (k0 + Z.to_nat (start t - (cur + Z.of_nat k0)))%nat
        with (Z.to_nat (start t - cur)) by (unfold k0, name_end in *; lia).
      by rewrite !string_app_assoc.
    + rewrite !string_app_length, Hlen, !Nat2Z.inj_add, HA.
      cbn [take]. rewrite inserted_length_cons.
      unfold k0, name_end in *. lia.
Qed.

Lemma document_order_within textLength pos nodes :
  0 <= pos ->
  document_order textLength pos nodes ->
  Forall (node_within textLength) nodes.
Proof.
  revert pos. induction nodes as [|p nodes IH]; intros pos Hpos Horder;
    [constructor|].
  destruct Horder as (Hoff & Hlen & Hend & Hrest).
  constructor; [unfold node_within; lia|]. eapply IH; [|exact Hrest]. lia.
Qed.

Lemma scanText_name_end text nodes t :
  document_order (Z.of_nat (String.length text)) 0 nodes ->
  Forall name_fits nodes ->
  t ∈ scanText text nodes ->
  name_end t <= Z.of_nat (String.length text).
Proof.
  intros Horder Hfits Ht.
  assert (span_key t ∈ map payload_key
            (filter (fun p => opener p = true) nodes)) as Hkey.
  { rewrite <- scanText_keys. by apply list_elem_of_fmap_2. }
  apply list_elem_of_fmap in Hkey as (p & Heq & Hp).
  apply list_elem_of_filter in Hp as [Hopener Hp].
  apply (document_order_within _ 0) in Horder; [|done].
  rewrite Forall_forall in Horder, Hfits.
  destruct (Horder p Hp) as (Hoff & Hlen & Hend).
  specialize (Hfits p Hp). unfold name_fits, width_fits, name_width in Hfits.
  unfold opener, relevant in Hopener.
  destruct (element_event p); [|by rewrite andb_false_r in Hopener].
  specialize (Hfits eq_refl).
  unfold span_key, payload_key in Heq. injection Heq as Hname Hstart.
  unfold name_end. rewrite Hname, Hstart. lia.
Qed.



(** X13. In the instrumented text of a scan of a tokenized text, the
    attribute string of each span stands right after the code units of the
    text that run from the [<] of its tag to the end of the name; these sit
    where they were in the text, moved to the right by the length of the
    attribute strings of the spans before. *)
Theorem X13_attribute_follows_name text nodes k t :
  document_order (Z.of_nat (String.length text)) 0 nodes ->
  Forall name_fits nodes ->
  scanText text nodes !! k = Some t ->
  String.length (tag_opening text t) = S (String.length (name t)) /\
  exists A B,
    instrument text (scanText text nodes)
    = A +:+ tag_opening text t +:+ attrText t +:+ B /\
    Z.of_nat (String.length A)
    = start t + inserted_length (take k (scanText text nodes)).
Proof.
  intros Horder Hfits Hk.
  pose proof (scanText_spans_ok text nodes Horder Hfits) as Hok.
  pose proof (scanText_name_end text nodes t Horder Hfits
                (list_elem_of_lookup_2 _ _ _ Hk)) as Hend.
  assert (0 <= start t) as Hstart.
  { destruct Hok as [Hall _]. rewrite Forall_forall in Hall.
    by apply (Hall t (list_elem_of_lookup_2 _ _ _ Hk)). }
  split.
  - unfold tag_opening. rewrite str_take_length, str_drop_length.
    unfold name_end in Hend. lia.
  - rewrite instrument_weave by done.
    destruct (weave_placement (scanText text nodes) k t text 0)
      as (A & B & Hrender & HA); [by destruct Hok| |done|lia|].
    { destruct Hok as [Hall _]. eapply Forall_impl; [exact Hall|].
      simpl. intros t'. lia. }
    exists A, B. rewrite Z.sub_0_r in *. split; [exact Hrender|lia].
Qed.

Lemma X13_attribute_follows_name_witness :
  let text := "<div><p>text" in
  let nodes := [openTag "DIV" 0 5; openTag "P" 5 3; textNode 8 4] in
  exists A B,
    instrument text (scanText text nodes)
    = A +:+ tag_opening text {| name := "P"; data := 1; start := 5; end_ := 8 |}
        +:+ attrText {| name := "P"; data := 1; start := 5; end_ := 8 |} +:+ B /\
    Z.of_nat (String.length A)
    = 5 + inserted_length (take 1 (scanText text nodes)).
Proof.
  intros text nodes.
  refine (proj2 (X13_attribute_follows_name text nodes 1
    {| name := "P"; data := 1; start := 5; end_ := 8 |} _ _ _)).
  - simpl. lia.
  - repeat constructor; unfold name_fits, width_fits, name_width; simpl;
      intros; lia.
  - reflexivity.
Defined.

(** ** The cache only grows *)

Section CacheGrowth.

Variable eachNode : string -> list Payload.

Lemma scanDocument_size doc w :
  (size (_cachedValues (snd (scanDocument eachNode doc w)))
   - size (_cachedValues w)
   <= eachNode_calls (snd (scanDocument eachNode doc w)) - eachNode_calls w)%nat /\
  (eachNode_calls w <= eachNode_calls (snd (scanDocument eachNode doc w)))%nat.
Proof.
  unfold scanDocument.
  destruct (_cachedValues w !! fullPath doc) as [cv|] eqn:Hlookup;
    [destruct (decide _); [simpl; lia|]|]; simpl;
    rewrite map_size_insert, Hlookup; unfold id; lia.
Qed.

(** X14. The cache never loses a snapshot: a path that has one keeps one
    through every later call of [scanDocument]. And in every state the
    module can reach, there are at most as many snapshots as the tokenizer
    has been called times. *)
Theorem X14_cache_only_grows :
  (forall doc w path,
     is_Some (_cachedValues w !! path) ->
     is_Some (_cachedValues (snd (scanDocument eachNode doc w)) !! path)) /\
  (forall w, reachable eachNode w ->
     (size (_cachedValues w) <= eachNode_calls w)%nat).
Proof.
  split.
  - intros doc w path Hsome. unfold scanDocument.
    destruct (_cachedValues w !! fullPath doc) as [cv|];
      [destruct (decide _); [done|]|]; simpl;
      (destruct (decide (path = fullPath doc)) as [->|Hne];
        [by rewrite lookup_insert_eq|by rewrite lookup_insert_ne]).
  - induction 1 as [|doc w Hw IH|msg w Hw IH]; simpl; [done| |done].
    destruct (scanDocument_size doc w). lia.
Qed.

End CacheGrowth.

Lemma X14_cache_only_grows_witness :
  is_Some (_cachedValues
    (snd (scanDocument sample_eachNode (mkDoc "/b.html" 2 "x")
       (snd (scanDocument sample_eachNode (mkDoc "/a.html" 1 "<br>") world_init))))
    !! "/a.html").
Proof.
  refine (proj1 (X14_cache_only_grows sample_eachNode) _ _ _ _).
  by eexists.
Defined.

(** ** Where the generator puts the attributes *)


Section Generator.

Variable eachNode : string -> list Payload.

(** The tokenizer reports offsets into the text. *)
Hypothesis eachNode_offsets :
  forall text, Forall (fun p => 0 <= sourceOffset p) (eachNode text).


End Generator.

